(** * FileSystemLibrary: a shallow embedding of [FileSystem.h] / [FileSystem.cpp]

    Module [FileSystem] follows the build in which [WIN] is not defined:
    [DIR_SEP] is the one-character string of a slash and the [#ifdef WIN]
    regions are not part of the program.  Module [WIN] has the functions
    that decide whether a path is absolute, and turn away one that is not,
    as they are compiled with [WIN] defined.

    Conventions.

    - [std::string] is [string]; a [DataContainer<string>] is a list of
      strings with the operations of [std::vector].
    - An iterator is an integer position ([Z]).  Iterator arithmetic is
      unchecked, as it is for the pointer-backed iterators of [std::vector]
      and [std::string]: [itr--] at [begin()] gives position [-1] and the
      following [++itr] gives [0] again.
    - A member function called outside its precondition ([back], [pop_back],
      [operator[]] of a vector, [erase] of a range that is not inside the
      container) has no defined result: the model returns [Undefined].
    - The only reads through out-of-range iterators are character reads of a
      [std::string] buffer at or after its terminator (in [isRemoteAddress]).
      The terminator reads as the zero character and what lies behind it is
      an arbitrary function [junk], so that results can be shown not to
      depend on it.  [getFileExtension] reads the terminator and nothing
      behind it.
    - The order in which the two arguments of [dirs.erase(itr--, itr--+1)]
      are evaluated is left open by the language and is a parameter of the
      model.  Right to left (the order of GCC) is the only order under which
      the call erases a dot-dot segment together with its predecessor, and
      the one the general results are stated for.
    - An exception is a result of its own: [std::string::at] throws where
      [operator[]] would read, and the functions of module [WIN] return
      what they return or the exception that leaves them.
    - The operating system is a parameter: [isFile] is an oracle, and the
      files read and written by [readFile], [writeFile] and [copyFile] live
      in a finite map.  Its keys are the files, not the paths: the oracle
      [file_of] gives the file that a path names, so that two paths may
      name one file.  Streams do not translate line ends, and
      running out of memory or of disk space is not modelled.  For
      [createPath] the file system is a finite map from paths to what
      [access] and [stat] see there, and [mkdir] succeeds on a missing entry
      when an oracle lets it; for [getDirectoryContents] and [isEmptyDir],
      [opendir] is an oracle for the names that [readdir] returns, and the
      number of open directory streams is counted.
    - [isalnum] is that of the C locale. *)

From Stdlib Require Import ZArith Ascii String List Lia Bool.
From stdpp Require Import base option list strings gmap.

Local Open Scope Z_scope.

(** ** Results of running C++ code *)

Inductive outcome (A : Type) : Type :=
| Ret (a : A)
| Undefined
| OutOfFuel.

Arguments Ret {A} a.
Arguments Undefined {A}.
Arguments OutOfFuel {A}.

Definition bind {A B : Type} (m : outcome A) (k : A -> outcome B) : outcome B :=
  match m with
  | Ret a => k a
  | Undefined => Undefined
  | OutOfFuel => OutOfFuel
  end.

Notation "x <- m ;; k" := (bind m (fun x => k))
  (at level 100, m at next level, right associativity).

Definition of_option {A : Type} (o : option A) : outcome A :=
  match o with
  | Some a => Ret a
  | None => Undefined
  end.

(** Code that may throw: the value it returns, or the [std::out_of_range]
    that [std::string::at] throws. *)
Inductive raising (A : Type) : Type :=
| Returns (a : A)
| Throws_out_of_range.

Arguments Returns {A} a.
Arguments Throws_out_of_range {A}.

(** ** [std::string] and [std::vector] primitives *)

Module Std.

(** Modelled from the spec: [DataContainer] is declared in the headers of the
    string library, which are outside the sources.  The spec (3) has the path
    segments be an ordered sequence, and the code uses the container through
    the interface of [std::vector] (random-access iterators, [operator[]],
    [erase], [back], [pop_back], [size]); it is a list, with the operations
    of [std::vector] below. *)
Abbreviation DataContainer := list (only parsing).

(** The order in which a compiler evaluates the arguments of a call. *)
Inductive arg_order : Type := RightToLeft | LeftToRight.

(** [v.size()] *)
Definition sizeZ {A : Type} (v : list A) : Z := Z.of_nat (List.length v).

(** [*itr] for an iterator at position [itr] of a vector. *)
Definition deref {A : Type} (v : list A) (itr : Z) : outcome A :=
  if itr <? 0 then Undefined else of_option (v !! Z.to_nat itr).

(** [v.erase(first, last)]: defined when [begin <= first <= last <= end]. *)
Definition erase_range {A : Type} (v : list A) (first last : Z) : outcome (list A) :=
  if (0 <=? first) && (first <=? last) && (last <=? sizeZ v)
  then Ret (take (Z.to_nat first) v ++ drop (Z.to_nat last) v)
  else Undefined.

(** [v.erase(pos)]: defined when [pos] designates an element. *)
Definition erase {A : Type} (v : list A) (pos : Z) : outcome (list A) :=
  if (0 <=? pos) && (pos <? sizeZ v)
  then Ret (take (Z.to_nat pos) v ++ drop (S (Z.to_nat pos)) v)
  else Undefined.

(** [v.back()] and [v.pop_back()] of a vector. *)
Definition back {A : Type} (v : list A) : outcome A := of_option (last v).

Definition pop_back {A : Type} (v : list A) : outcome (list A) :=
  match v with
  | [] => Undefined
  | _ => Ret (removelast v)
  end.

(** The last character of a string, if it has one. *)
Fixpoint str_last (s : string) : option ascii :=
  match s with
  | EmptyString => None
  | String c EmptyString => Some c
  | String _ s' => str_last s'
  end.

(** [s.back()] of a string. *)
Definition str_back (s : string) : outcome ascii := of_option (str_last s).

Definition str_empty (s : string) : bool :=
  match s with
  | EmptyString => true
  | _ => false
  end.

End Std.

(** ** The string library's [split] *)

Module StringLib.

(** The fields of [s] between occurrences of [sep]; never an empty list. *)
Fixpoint fields (sep : ascii) (s : string) : list string :=
  match s with
  | EmptyString => [EmptyString]
  | String c s' =>
      if Ascii.eqb c sep then EmptyString :: fields sep s'
      else match fields sep s' with
           | f :: fs => String c f :: fs
           | [] => [String c EmptyString]
           end
  end.

(** Modelled from the spec: [String::split] is declared in
    [StringLibrary/src/String.h], which is outside the sources.  The spec
    (4.1) has it produce the ordered list of the substrings between
    separators, keeping empty segments, and an empty sequence for the empty
    string.  [getCleanPath] and [getRelativePath] discard the empty segments
    themselves ([resolve_nonempty], [erase_empty_filter]). *)
Definition split (str : string) (delimiter : ascii) : Std.DataContainer string :=
  match str with
  | EmptyString => []
  | _ => fields delimiter str
  end.

End StringLib.

(** ** [FileSystem.h] *)

Module FileSystem.

Import Std.

Definition DIR_SEP : string := "/".

(** [DIR_SEP[0]] *)
Definition DIR_SEP_0 : ascii := "/"%char.

(** [isAbsolutePath]: [!path.empty() && path.front() == DIR_SEP[0]]. *)
Definition isAbsolutePath (path : string) : bool :=
  negb (str_empty path) &&
  match path with
  | String c _ => Ascii.eqb c DIR_SEP_0
  | EmptyString => false
  end.

(** *** [getCleanPath] *)

Definition is_dot (s : string) : bool := String.eqb s ".".
Definition is_dotdot (s : string) : bool := String.eqb s "..".

(** The arguments [itr--] and [itr--+1] of [dirs.erase] and the iterator
    they leave, for an iterator at [itr]. *)
Definition erase_arguments (order : arg_order) (itr : Z) : Z * Z * Z :=
  match order with
  | RightToLeft =>
      let last := itr + 1 in
      let itr := itr - 1 in
      let first := itr in
      let itr := itr - 1 in
      (first, last, itr)
  | LeftToRight =>
      let first := itr in
      let itr := itr - 1 in
      let last := itr + 1 in
      let itr := itr - 1 in
      (first, last, itr)
  end.

(** The erasing loop of [getCleanPath], one iteration per unit of fuel:
<<
    for (auto itr = dirs.begin(); itr != dirs.end(); ++itr)
        if (itr->empty() || *itr == ".")
            dirs.erase(itr--);
        else if ( *itr == ".." )
            dirs.erase(itr--, itr--+1);
>>
*)
Fixpoint clean_loop (order : arg_order) (fuel : nat)
    (dirs : DataContainer string) (itr : Z) : outcome (DataContainer string) :=
  if itr =? sizeZ dirs then Ret dirs else
  match fuel with
  | O => OutOfFuel
  | S fuel' =>
      s <- deref dirs itr ;;
      if str_empty s || is_dot s then
        let pos := itr in
        let itr := itr - 1 in
        dirs' <- erase dirs pos ;;
        clean_loop order fuel' dirs' (itr + 1)
      else if is_dotdot s then
        let '(first, last, itr) := erase_arguments order itr in
        dirs' <- erase_range dirs first last ;;
        clean_loop order fuel' dirs' (itr + 1)
      else
        clean_loop order fuel' dirs (itr + 1)
  end.

(** [path.append(DIR_SEP).append(dir)] for every [dir]. *)
Fixpoint append_dirs (path : string) (dirs : list string) : string :=
  match dirs with
  | [] => path
  | dir :: dirs' => append_dirs ((path +:+ DIR_SEP) +:+ dir) dirs'
  end.

Definition getCleanPath (order : arg_order) (path : string) : outcome string :=
  if negb (isAbsolutePath path) then Ret path else
  b <- str_back path ;;
  let target_is_directory := Ascii.eqb b DIR_SEP_0 in
  let dirs := StringLib.split path DIR_SEP_0 in
  let path := EmptyString in
  dirs <- clean_loop order (List.length dirs) dirs 0 ;;
  let path :=
    match dirs with
    | [] => path +:+ DIR_SEP
    | _ => append_dirs path dirs
    end in
  let path := if target_is_directory then path +:+ DIR_SEP else path in
  Ret path.

(** *** [getRelativePath] *)

(** The two loops that erase the empty segments, walking a reverse
    iterator whose [base()] runs from the last element down to the first:
<<
    for (auto itr = dirs.rbegin()+1; itr != dirs.rend()+1; ++itr)
        if (itr.base()->empty()) dirs.erase(itr.base());
>>
    [base] is the position of [itr.base()]; [rend()+1] has base [-1]. *)
Fixpoint erase_empty_loop (fuel : nat) (dirs : DataContainer string) (base : Z)
  : outcome (DataContainer string) :=
  if base =? -1 then Ret dirs else
  match fuel with
  | O => OutOfFuel
  | S fuel' =>
      s <- deref dirs base ;;
      if str_empty s then
        dirs' <- erase dirs base ;;
        erase_empty_loop fuel' dirs' (base - 1)
      else
        erase_empty_loop fuel' dirs (base - 1)
  end.

Definition erase_empty (dirs : DataContainer string)
  : outcome (DataContainer string) :=
  erase_empty_loop (List.length dirs) dirs (sizeZ dirs - 1).

(** The inner loop of the first branch: [for (; i != dirs_path1.size(); ++i)]
    appending [dirs_path2[i]] and a separator. *)
Fixpoint descend_loop (fuel : nat) (dirs_path1 dirs_path2 : DataContainer string)
    (i : Z) (path1 : string) : outcome string :=
  if i =? sizeZ dirs_path1 then Ret path1 else
  match fuel with
  | O => OutOfFuel
  | S fuel' =>
      d <- deref dirs_path2 i ;;
      let path1 := path1 +:+ d in
      let path1 := path1 +:+ DIR_SEP in
      descend_loop fuel' dirs_path1 dirs_path2 (i + 1) path1
  end.

(** The outer loop of the first branch ([dirs_path1.size() >= dirs_path2.size()]). *)
Fixpoint climb_loop (fuel : nat) (dirs_path1 dirs_path2 : DataContainer string)
    (i : Z) (path1 : string) : outcome string :=
  if i =? sizeZ dirs_path1 then Ret path1 else
  match fuel with
  | O => OutOfFuel
  | S fuel' =>
      same <- (if sizeZ dirs_path2 >? i then
                 a <- deref dirs_path1 i ;;
                 b <- deref dirs_path2 i ;;
                 Ret (String.eqb a b)
               else Ret false) ;;
      if same then climb_loop fuel' dirs_path1 dirs_path2 (i + 1) path1
      else
        let path1 := path1 +:+ ".." in
        let path1 := path1 +:+ DIR_SEP in
        descend_loop fuel dirs_path1 dirs_path2 i path1
  end.

(** The loop of the second branch ([dirs_path1.size() < dirs_path2.size()]). *)
Fixpoint suffix_loop (fuel : nat) (dirs_path1 dirs_path2 : DataContainer string)
    (i : Z) (path1 : string) : outcome string :=
  if i =? sizeZ dirs_path2 then Ret path1 else
  match fuel with
  | O => OutOfFuel
  | S fuel' =>
      same <- (if sizeZ dirs_path1 >? i then
                 a <- deref dirs_path1 i ;;
                 b <- deref dirs_path2 i ;;
                 Ret (String.eqb a b)
               else Ret false) ;;
      if same then suffix_loop fuel' dirs_path1 dirs_path2 (i + 1) path1
      else
        d <- deref dirs_path2 i ;;
        suffix_loop fuel' dirs_path1 dirs_path2 (i + 1) (path1 +:+ (d +:+ DIR_SEP))
  end.

Section WithFileSystem.

(** [isFile(path)]: whether [stat] reports a regular file at [path]. *)
Variable isFile : string -> bool.

Definition getRelativePath (path1 path2 : string) : outcome string :=
  if negb (isAbsolutePath path1) || negb (isAbsolutePath path2)
  then Ret EmptyString else
  b <- str_back path2 ;;
  let path2_is_file := negb (Ascii.eqb b "/"%char) in
  let dirs_path1 := StringLib.split path1 DIR_SEP_0 in
  let dirs_path2 := StringLib.split path2 DIR_SEP_0 in
  dirs_path1 <- erase_empty dirs_path1 ;;
  dirs_path2 <- erase_empty dirs_path2 ;;
  dirs_path1 <- (if isFile path1 then pop_back dirs_path1 else Ret dirs_path1) ;;
  fd <- (if path2_is_file then
           file_name <- back dirs_path2 ;;
           dirs_path2 <- pop_back dirs_path2 ;;
           Ret (file_name, dirs_path2)
         else Ret (EmptyString, dirs_path2)) ;;
  let file_name := fst fd in
  let dirs_path2 := snd fd in
  let path1 := EmptyString in
  path1 <- (if sizeZ dirs_path1 >=? sizeZ dirs_path2
            then climb_loop (List.length dirs_path1) dirs_path1 dirs_path2 0 path1
            else suffix_loop (List.length dirs_path2) dirs_path1 dirs_path2 0 path1) ;;
  let path1 := if path2_is_file then path1 +:+ file_name else path1 in
  Ret path1.

End WithFileSystem.

(** *** [isRemoteAddress] *)

(** [isalnum] in the C locale. *)
Definition isalnum (c : ascii) : bool :=
  let n := nat_of_ascii c in
  ((48 <=? n) && (n <=? 57) || (65 <=? n) && (n <=? 90) ||
   (97 <=? n) && (n <=? 122))%nat.

Section WithJunk.

(** What a read at position [i] finds behind the terminator of a string. *)
Variable junk : nat -> ascii.

(** [*(s.begin() + i)] *)
Definition str_read (s : string) (i : nat) : ascii :=
  match String.get i s with
  | Some c => c
  | None => if (i =? String.length s)%nat then zero else junk i
  end.

(** [string(s.begin() + first, s.begin() + first + n)] *)
Fixpoint str_range (s : string) (first n : nat) : string :=
  match n with
  | O => EmptyString
  | S n' => String (str_read s first) (str_range s (S first) n')
  end.

(** The loop of [isRemoteAddress].  The iterator is its position [itr]
    together with the characters [rest] from it to [addr.end()]. *)
Fixpoint scan_protocol (addr rest : string) (itr : nat) (protocol : string)
  : bool :=
  match rest with
  | EmptyString => false
  | String c rest' =>
      if isalnum c then
        scan_protocol addr rest' (S itr) (protocol +:+ String c EmptyString)
      else if negb (String.eqb protocol "file") &&
              String.eqb (str_range addr itr 3) "://"
      then true
      else false
  end.

Definition isRemoteAddress (addr : string) : bool :=
  if String.eqb (str_range addr 0 2) "//" then true
  else scan_protocol addr addr 0 EmptyString.

End WithJunk.

(** *** [getParentPath] *)

(** [find(first, path.rend(), c).base()], where [first] is a reverse
    iterator with the characters [rev_chars] left to visit: its [base()] is
    the number of those characters. *)
Fixpoint find_reverse_base (c : ascii) (rev_chars : list ascii) : nat :=
  match rev_chars with
  | [] => O
  | x :: rev_chars' =>
      if Ascii.eqb x c then List.length rev_chars
      else find_reverse_base c rev_chars'
  end.

Definition str_pop_back (s : string) : string :=
  String.substring 0 (String.length s - 1) s.

Definition getParentPath (path : string) : outcome string :=
  let parent_path := path in
  b <- str_back parent_path ;;
  let parent_path :=
    if Ascii.eqb b DIR_SEP_0 then str_pop_back parent_path else parent_path in
  let base := find_reverse_base DIR_SEP_0 (rev (list_ascii_of_string path)) in
  let parent_path := String.substring 0 base path in
  Ret parent_path.

(** *** [readFile] and [writeFile] *)

(** What a stream finds at a file: the characters read from it, and whether
    it may be opened for reading and for writing.  A directory is opened
    for reading, and nothing is read from it; it is not opened for
    writing. *)
Record file : Type := File {
  contents : string;
  readable : bool;
  writable : bool
}.

(** [ofstream::openmode] *)
Record openmode : Type := OpenMode {
  ios_app : bool;
  ios_ate : bool;
  ios_binary : bool;
  ios_in : bool;
  ios_out : bool;
  ios_trunc : bool
}.

(** The default [ios::out | ios::trunc] of [writeFile]. *)
Definition default_mode : openmode :=
  OpenMode false false false false true true.

(** The [fopen] modes a [basic_filebuf] can be opened with for writing. *)
Inductive fopen_mode : Type := W | A | Rplus | Wplus | Aplus.

(** [basic_filebuf::open]: the table of the flag combinations that open
    the file, after [ofstream::open] has added [ios::out]; [ios::ate] and
    [ios::binary] do not take part in the choice. *)
Definition fopen_mode_of (mode : openmode) : option fopen_mode :=
  match ios_in mode, ios_trunc mode, ios_app mode with
  | false, false, false => Some W
  | false, false, true => Some A
  | false, true, false => Some W
  | true, false, false => Some Rplus
  | true, true, false => Some Wplus
  | true, false, true => Some Aplus
  | _, true, true => None
  end.

Definition newline : ascii := "010"%char.

(** [getline(file, line)] on a stream with the characters [stream] left:
    the line and the characters left after it. *)
Fixpoint getline (stream : string) : string * string :=
  match stream with
  | EmptyString => (EmptyString, EmptyString)
  | String c stream' =>
      if Ascii.eqb c newline then (EmptyString, stream')
      else let (line, rest) := getline stream' in (String c line, rest)
  end.

(** [while (getline(file, line)) { content += line; content += newline; }]:
    [getline] fails when it extracts no character, that is at end of file. *)
Fixpoint read_lines (fuel : nat) (stream content : string) : outcome string :=
  match stream with
  | EmptyString => Ret content
  | _ =>
      match fuel with
      | O => OutOfFuel
      | S fuel' =>
          let (line, rest) := getline stream in
          let content := content +:+ line in
          let content := content +:+ String newline EmptyString in
          read_lines fuel' rest content
      end
  end.

Section WithFiles.

(** The file that a path names: where the name resolution of the operating
    system leads (the current directory, [.] and [..], links), be there a
    file already or the place for one.  Two paths that name one file, as
    [s] and [./s] or two links to it, have one value, and the files are kept
    under these values.  [readFile], [writeFile] and [copyFile] make and
    remove no directory and no link, so a path names the same file before
    and after a call. *)
Variable file_of : string -> string.

(** [readFile]: the returned pair is the result and the final [content].
    The call of [content.reserve] does not change [content]. *)
Definition readFile (fs : gmap string file) (path : string)
  : outcome (bool * string) :=
  let content := EmptyString in
  match fs !! file_of path with
  | Some f =>
      if readable f then
        content <- read_lines (String.length (contents f)) (contents f) content ;;
        Ret (true, content)
      else Ret (false, content)
  | None => Ret (false, content)
  end.

Section WithCreation.

(** Creating a file that does not exist: [None] when the directory does
    not allow it, otherwise the read and write permissions the new file
    gets from the process's file mode creation mask. *)
Variable create : string -> option (bool * bool).

(** [file.open(path, mode)]: the contents the stream starts from and the
    permissions of the file, when the stream is good. *)
Definition open_for_writing (fs : gmap string file) (path : string)
    (m : fopen_mode) : option file :=
  match fs !! file_of path with
  | Some f =>
      let allowed :=
        match m with
        | W | A => writable f
        | Rplus | Wplus | Aplus => readable f && writable f
        end in
      if allowed then
        match m with
        | W | Wplus => Some (File EmptyString (readable f) (writable f))
        | A | Aplus | Rplus => Some f
        end
      else None
  | None =>
      match m with
      | Rplus => None
      | _ =>
          match create path with
          | Some (r, w) => Some (File EmptyString r w)
          | None => None
          end
      end
  end.

(** [file << content]: appended in the append modes and after
    [ios::ate], otherwise written over the contents from the start. *)
Definition put (m : fopen_mode) (ate : bool) (old content : string) : string :=
  match m with
  | A | Aplus => old +:+ content
  | _ =>
      if ate then old +:+ content
      else content +:+
           String.substring (String.length content)
             (String.length old - String.length content) old
  end.

(** [writeFile]: the result and the file system it leaves. *)
Definition writeFile (fs : gmap string file) (path content : string)
    (mode : openmode) (last_modified_time : Z)
  : bool * gmap string file :=
  match fopen_mode_of mode with
  | None => (false, fs)
  | Some m =>
      match open_for_writing fs path m with
      | None => (false, fs)
      | Some f =>
          let f' := File (put m (ios_ate mode) (contents f) content)
                         (readable f) (writable f) in
          (true, <[file_of path := f']> fs)
      end
  end.

End WithCreation.

End WithFiles.

(** *** [getBaseName] and [getFileExtension] *)

Definition getBaseName (path : string) : outcome string :=
  b <- str_back path ;;
  let path := if Ascii.eqb b DIR_SEP_0 then str_pop_back path else path in
  let base := find_reverse_base DIR_SEP_0 (rev (list_ascii_of_string path)) in
  Ret (String.substring base (String.length path - base) path).

(** [*(s.begin() + i)] for a position up to [s.end()], where the terminator
    is read. *)
Definition str_deref (s : string) (i : nat) : outcome ascii :=
  match String.get i s with
  | Some c => Ret c
  | None => if (i =? String.length s)%nat then Ret zero else Undefined
  end.

(** The loop of [getFileExtension], with [itr] the position of the iterator:
<<
    while (itr != file_path.begin() && *itr != DIR_SEP[0])
        if ( *--itr == '.' )
            return string(itr, file_path.end());
    return string();
>>
*)
Fixpoint extension_loop (file_path : string) (itr : nat) : outcome string :=
  match itr with
  | O => Ret EmptyString
  | S itr' =>
      c <- str_deref file_path itr ;;
      if Ascii.eqb c DIR_SEP_0 then Ret EmptyString
      else
        d <- str_deref file_path itr' ;;
        if Ascii.eqb d "."
        then Ret (String.substring itr' (String.length file_path - itr') file_path)
        else extension_loop file_path itr'
  end.

Definition getFileExtension (file_path : string) : outcome string :=
  file_path <- getBaseName file_path ;;
  extension_loop file_path (String.length file_path).

(** *** [copyFile] *)

Definition BUFFER_LENGTH : nat := 4096.

(** The copying loop: [fread] takes up to [BUFFER_LENGTH] characters of what
    is left of the input, and the loop ends when it takes none.
<<
    while (bool(cnt = fread(buf, 1, BUFFER_LENGTH, from_fp)))
        fwrite(buf, 1, cnt, to_fp);
>>
*)
Fixpoint copy_loop (fuel : nat) (from to : string) : outcome string :=
  let cnt := Nat.min BUFFER_LENGTH (String.length from) in
  if (cnt =? 0)%nat then Ret to else
  match fuel with
  | O => OutOfFuel
  | S fuel' =>
      let buf := String.substring 0 cnt from in
      copy_loop fuel' (String.substring cnt (String.length from - cnt) from)
        (to +:+ buf)
  end.

Section WithCreationForCopy.

(** The file that a path names, as for [readFile] and [writeFile]. *)
Variable file_of : string -> string.
Variable create : string -> option (bool * bool).

(** [copyFile]: the result and the file system it leaves.  The output is
    opened, and so truncated, before the input is read; with the output not
    opened, [to_fp] is null and [fclose(to_fp)] is not defined. *)
Definition copyFile (fs : gmap string file) (input_path output_path : string)
  : outcome (bool * gmap string file) :=
  match fs !! file_of input_path with
  | Some f =>
      if readable f then
        match open_for_writing file_of create fs output_path W with
        | None => Undefined
        | Some g =>
            let fs := <[file_of output_path := g]> fs in
            let input :=
              match fs !! file_of input_path with
              | Some f' => contents f'
              | None => EmptyString
              end in
            data <- copy_loop (String.length input) input (contents g) ;;
            Ret (true,
                 <[file_of output_path := File data (readable g) (writable g)]> fs)
        end
      else Ret (false, fs)
  | None => Ret (false, fs)
  end.

End WithCreationForCopy.

(** *** [createPath] *)

(** What [access] and [stat] see at a path. *)
Inductive entry : Type := Directory | NotDirectory.

(** [exists] and [isDir] *)
Definition exists_ (tree : gmap string entry) (path : string) : bool :=
  match tree !! path with
  | Some _ => true
  | None => false
  end.

Definition isDir (tree : gmap string entry) (path : string) : bool :=
  match tree !! path with
  | Some Directory => true
  | _ => false
  end.

Section WithMkdir.

(** Whether [mkdir] is let to create a missing entry: the parent is a
    directory the process may write to. *)
Variable mkdir_allowed : gmap string entry -> string -> bool.

(** [createDirectory]: [mkdir(path, mode) == 0] *)
Definition createDirectory (tree : gmap string entry) (path : string)
  : bool * gmap string entry :=
  match tree !! path with
  | Some _ => (false, tree)
  | None =>
      if mkdir_allowed tree path then (true, <[path := Directory]> tree)
      else (false, tree)
  end.

(** The loop of [createPath]; the state is the tree, [path] and [fail_path]. *)
Fixpoint create_loop (fuel : nat) (tree : gmap string entry)
    (directories : DataContainer string) (itr : Z) (path fail_path : string)
  : outcome (bool * gmap string entry * string) :=
  if itr =? sizeZ directories then Ret (true, tree, fail_path) else
  match fuel with
  | O => OutOfFuel
  | S fuel' =>
      s <- deref directories itr ;;
      if str_empty s then
        let pos := itr in
        let itr := itr - 1 in
        directories' <- erase directories pos ;;
        create_loop fuel' tree directories' (itr + 1) path fail_path
      else
        let path := path +:+ (DIR_SEP +:+ s) in
        if exists_ tree path then
          if negb (isDir tree path) then Ret (false, tree, path)
          else create_loop fuel' tree directories (itr + 1) path fail_path
        else
          let (created, tree') := createDirectory tree path in
          if negb created then Ret (false, tree', path)
          else create_loop fuel' tree' directories (itr + 1) path fail_path
  end.

(** [createPath]: the result, the tree it leaves and [fail_path]. *)
Definition createPath (tree : gmap string entry) (path fail_path : string)
  : outcome (bool * gmap string entry * string) :=
  if negb (isAbsolutePath path) then Ret (false, tree, fail_path) else
  let directories := StringLib.split path DIR_SEP_0 in
  let path := EmptyString in
  match directories with
  | [] => Ret (true, tree, fail_path)
  | _ => create_loop (List.length directories) tree directories 0 path fail_path
  end.

End WithMkdir.

(** *** [getDirectoryContents] and [isEmptyDir] *)

Section WithDirectoryStreams.

(** [opendir(path)]: [None] for a null stream, otherwise the names that
    [readdir] will return. *)
Variable opendir : string -> option (list string).

(** The loop of [getDirectoryContents] over the names [readdir] returns. *)
Fixpoint contents_loop (path : string) (names : list string)
    (entries : DataContainer string) : DataContainer string :=
  match names with
  | [] => entries
  | d_name :: names' =>
      if negb (String.eqb d_name ".") && negb (String.eqb d_name "..")
      then contents_loop path names' (entries ++ [(path +:+ DIR_SEP) +:+ d_name])
      else contents_loop path names' entries
  end.

(** [getDirectoryContents]: the entries and the number of directory streams
    left open, out of [streams] open before.  [readdir] of a null stream is
    not defined. *)
Definition getDirectoryContents (streams : nat) (path : string)
  : outcome (DataContainer string * nat) :=
  match opendir path with
  | None => Undefined
  | Some names =>
      let streams := S streams in
      let entries := contents_loop path names [] in
      let streams := Nat.pred streams in
      Ret (entries, streams)
  end.

(** The loop of [isEmptyDir]: [true] when it leaves by [return false], after
    [closedir]. *)
Fixpoint count_loop (names : list string) (cnt : Z) : bool :=
  match names with
  | [] => false
  | _ :: names' =>
      let cnt := cnt + 1 in
      if cnt >? 2 then true else count_loop names' cnt
  end.

(** [isEmptyDir]: the result and the number of directory streams left
    open. *)
Definition isEmptyDir (streams : nat) (path : string) : outcome (bool * nat) :=
  match opendir path with
  | None => Undefined
  | Some names =>
      let streams := S streams in
      if count_loop names 0 then
        let streams := Nat.pred streams in
        Ret (false, streams)
      else Ret (true, streams)
  end.

End WithDirectoryStreams.

End FileSystem.

(** ** The build with [WIN] defined

    [isAbsolutePath], [getCleanPath] and [getRelativePath] as they are
    compiled with [WIN] defined: [DIR_SEP] is the one-character string of a
    backslash, a path is absolute when it starts with a drive letter and a
    colon, and the two characters of the drive are set apart while the rest
    of the path is worked on.  The loops that erase segments are those of
    the other build. *)

Module WIN.

Import Std.

(** [DIR_SEP[0]], the backslash, and [DIR_SEP]. *)
Definition DIR_SEP_0 : ascii := ascii_of_nat 92.

Definition DIR_SEP : string := String DIR_SEP_0 EmptyString.

(** [isalpha] in the C locale. *)
Definition isalpha (c : ascii) : bool :=
  let n := nat_of_ascii c in
  ((65 <=? n) && (n <=? 90) || (97 <=? n) && (n <=? 122))%nat.

(** [s.at(pos)]: throws unless [pos < s.size()]. *)
Definition str_at (s : string) (pos : nat) : raising ascii :=
  match String.get pos s with
  | Some c => Returns c
  | None => Throws_out_of_range
  end.

(** [s.front()] of a string. *)
Definition str_front (s : string) : outcome ascii :=
  match s with
  | String c _ => Ret c
  | EmptyString => Undefined
  end.

(** [isAbsolutePath]:
    [!path.empty() && isalpha(path.front()) && path.at(1) == ':'], the
    conjuncts evaluated from left to right until one is false. *)
Definition isAbsolutePath (path : string) : raising bool :=
  match path with
  | EmptyString => Returns false
  | String front _ =>
      if isalpha front then
        match str_at path 1 with
        | Returns c => Returns (Ascii.eqb c ":")
        | Throws_out_of_range => Throws_out_of_range
        end
      else Returns false
  end.

(** [path.append(DIR_SEP).append(dir)] for every [dir]. *)
Fixpoint append_dirs (path : string) (dirs : list string) : string :=
  match dirs with
  | [] => path
  | dir :: dirs' => append_dirs ((path +:+ DIR_SEP) +:+ dir) dirs'
  end.

(** [getCleanPath]: what [isAbsolutePath] throws leaves the function; the
    rest does not throw ([substr(2)] is called on two characters at
    least). *)
Definition getCleanPath (order : arg_order) (path : string)
  : raising (outcome string) :=
  match isAbsolutePath path with
  | Throws_out_of_range => Throws_out_of_range
  | Returns false => Returns (Ret path)
  | Returns true =>
      Returns
        (b <- str_back path ;;
         let target_is_directory := Ascii.eqb b DIR_SEP_0 in
         let PARTITION := String.substring 0 2 path in
         let path := String.substring 2 (String.length path - 2) path in
         let dirs := StringLib.split path DIR_SEP_0 in
         let path := EmptyString in
         dirs <- FileSystem.clean_loop order (List.length dirs) dirs 0 ;;
         let path := PARTITION in
         let path :=
           match dirs with
           | [] => path +:+ DIR_SEP
           | _ => append_dirs path dirs
           end in
         let path := if target_is_directory then path +:+ DIR_SEP else path in
         Ret path)
  end.

(** The loops of the two branches of [getRelativePath], with the separator
    of this build. *)
Fixpoint descend_loop (fuel : nat) (dirs_path1 dirs_path2 : DataContainer string)
    (i : Z) (path1 : string) : outcome string :=
  if i =? sizeZ dirs_path1 then Ret path1 else
  match fuel with
  | O => OutOfFuel
  | S fuel' =>
      d <- deref dirs_path2 i ;;
      let path1 := path1 +:+ d in
      let path1 := path1 +:+ DIR_SEP in
      descend_loop fuel' dirs_path1 dirs_path2 (i + 1) path1
  end.

Fixpoint climb_loop (fuel : nat) (dirs_path1 dirs_path2 : DataContainer string)
    (i : Z) (path1 : string) : outcome string :=
  if i =? sizeZ dirs_path1 then Ret path1 else
  match fuel with
  | O => OutOfFuel
  | S fuel' =>
      same <- (if sizeZ dirs_path2 >? i then
                 a <- deref dirs_path1 i ;;
                 b <- deref dirs_path2 i ;;
                 Ret (String.eqb a b)
               else Ret false) ;;
      if same then climb_loop fuel' dirs_path1 dirs_path2 (i + 1) path1
      else
        let path1 := path1 +:+ ".." in
        let path1 := path1 +:+ DIR_SEP in
        descend_loop fuel dirs_path1 dirs_path2 i path1
  end.

Fixpoint suffix_loop (fuel : nat) (dirs_path1 dirs_path2 : DataContainer string)
    (i : Z) (path1 : string) : outcome string :=
  if i =? sizeZ dirs_path2 then Ret path1 else
  match fuel with
  | O => OutOfFuel
  | S fuel' =>
      same <- (if sizeZ dirs_path1 >? i then
                 a <- deref dirs_path1 i ;;
                 b <- deref dirs_path2 i ;;
                 Ret (String.eqb a b)
               else Ret false) ;;
      if same then suffix_loop fuel' dirs_path1 dirs_path2 (i + 1) path1
      else
        d <- deref dirs_path2 i ;;
        suffix_loop fuel' dirs_path1 dirs_path2 (i + 1) (path1 +:+ (d +:+ DIR_SEP))
  end.

Section WithFileSystem.

(** [isFile(path)]: whether [stat] reports a regular file at [path]. *)
Variable isFile : string -> bool.

(** [getRelativePath]: [isAbsolutePath(path2)] is called only when
    [path1] is absolute, and what either call throws leaves the function.
    Two paths on different drives give the empty string; [isFile] is asked
    about [path1] without its drive, and a file name is told by the slash,
    as in the other build. *)
Definition getRelativePath (path1 path2 : string) : raising (outcome string) :=
  match isAbsolutePath path1 with
  | Throws_out_of_range => Throws_out_of_range
  | Returns false => Returns (Ret EmptyString)
  | Returns true =>
      match isAbsolutePath path2 with
      | Throws_out_of_range => Throws_out_of_range
      | Returns false => Returns (Ret EmptyString)
      | Returns true =>
          Returns
            (let PARTITION := String.substring 0 2 path1 in
             front1 <- str_front path1 ;;
             front2 <- str_front path2 ;;
             if negb (Ascii.eqb front1 front2) then Ret EmptyString else
             let path1 := String.substring 2 (String.length path1 - 2) path1 in
             let path2 := String.substring 2 (String.length path2 - 2) path2 in
             b <- str_back path2 ;;
             let path2_is_file := negb (Ascii.eqb b "/"%char) in
             let dirs_path1 := StringLib.split path1 DIR_SEP_0 in
             let dirs_path2 := StringLib.split path2 DIR_SEP_0 in
             dirs_path1 <- FileSystem.erase_empty dirs_path1 ;;
             dirs_path2 <- FileSystem.erase_empty dirs_path2 ;;
             dirs_path1 <- (if isFile path1 then pop_back dirs_path1
                            else Ret dirs_path1) ;;
             fd <- (if path2_is_file then
                      file_name <- back dirs_path2 ;;
                      dirs_path2 <- pop_back dirs_path2 ;;
                      Ret (file_name, dirs_path2)
                    else Ret (EmptyString, dirs_path2)) ;;
             let file_name := fst fd in
             let dirs_path2 := snd fd in
             let path1 := PARTITION in
             path1 <- (if sizeZ dirs_path1 >=? sizeZ dirs_path2
                       then climb_loop (List.length dirs_path1)
                              dirs_path1 dirs_path2 0 path1
                       else suffix_loop (List.length dirs_path2)
                              dirs_path1 dirs_path2 0 path1) ;;
             let path1 := if path2_is_file then path1 +:+ file_name else path1 in
             Ret path1)
      end
  end.

End WithFileSystem.

End WIN.


Import Std StringLib FileSystem.

(** * Reference definitions

    The functions in which the properties below are stated. *)

Definition nonempty (s : string) : bool := negb (str_empty s).

(** The segments of a path: the non-empty fields between separators. *)
Definition segments (path : string) : list string :=
  List.filter nonempty (split path DIR_SEP_0).

(** What the loop computes, read off its three cases: the segments before the
    iterator are a stack (top first in [stack]); an empty or single-dot
    segment is skipped, a dot-dot segment pops the stack, anything else is
    pushed.  A dot-dot segment on the empty stack makes the loop erase the
    range starting one position before [begin()], which is not defined. *)
Fixpoint resolve (stack segments : list string) : outcome (list string) :=
  match segments with
  | [] => Ret (reverse stack)
  | s :: segments' =>
      if str_empty s || is_dot s then resolve stack segments'
      else if is_dotdot s then
        match stack with
        | [] => Undefined
        | _ :: stack' => resolve stack' segments'
        end
      else resolve (s :: stack) segments'
  end.

(** The end of [getCleanPath]: the separator alone when no segment is left,
    otherwise every segment behind a separator; and a separator more when
    the input ended in one. *)
Definition join_clean (dirs : list string) (target_is_directory : bool) : string :=
  let path :=
    match dirs with
    | [] => EmptyString +:+ DIR_SEP
    | _ => append_dirs EmptyString dirs
    end in
  if target_is_directory then path +:+ DIR_SEP else path.

(** No character of [s] is the separator. *)
Fixpoint no_sep (s : string) : bool :=
  match s with
  | EmptyString => true
  | String c s' => negb (Ascii.eqb c DIR_SEP_0) && no_sep s'
  end.

(** A segment that the loop of [getCleanPath] keeps. *)
Definition kept (s : string) : bool :=
  negb (str_empty s || is_dot s) && negb (is_dotdot s) && no_sep s.

(** [/d1/d2/.../dn] *)
Fixpoint slashed (dirs : list string) : string :=
  match dirs with
  | [] => EmptyString
  | dir :: dirs' => DIR_SEP +:+ dir +:+ slashed dirs'
  end.

(** [d1/d2/.../dn/] *)
Fixpoint trailed (dirs : list string) : string :=
  match dirs with
  | [] => EmptyString
  | dir :: dirs' => dir +:+ DIR_SEP +:+ trailed dirs'
  end.

(** The number of leading segments two sequences share. *)
Fixpoint shared (dirs1 dirs2 : list string) : nat :=
  match dirs1, dirs2 with
  | a :: dirs1', b :: dirs2' =>
      if String.eqb a b then S (shared dirs1' dirs2') else O
  | _, _ => O
  end.

(** The segments of [dirs2] that differ from the segment of [dirs1] at the
    same index, or have none there. *)
Fixpoint differing (dirs1 dirs2 : list string) {struct dirs2} : list string :=
  match dirs2 with
  | [] => []
  | b :: dirs2' =>
      match dirs1 with
      | [] => dirs2
      | a :: dirs1' =>
          if String.eqb a b then differing dirs1' dirs2'
          else b :: differing dirs1' dirs2'
      end
  end.

(** The three cases of the two branches. *)
Definition relative (dirs1 dirs2 : list string) : outcome string :=
  if (length dirs2 <? length dirs1)%nat then Undefined
  else if (length dirs1 =? length dirs2)%nat then
    if (shared dirs1 dirs2 =? length dirs1)%nat then Ret EmptyString
    else Ret (".." +:+ DIR_SEP +:+ trailed (drop (shared dirs1 dirs2) dirs2))
  else Ret (trailed (differing dirs1 dirs2)).

(** A file system without regular files. *)
Definition no_regular_file (path : string) : bool := false.

(** The content with its last line terminated: nothing for the empty
    content, the content itself when it ends in a newline, and the content
    followed by a newline otherwise. *)
Definition terminated (content : string) : string :=
  match str_last content with
  | None => EmptyString
  | Some c =>
      if Ascii.eqb c newline then content
      else content +:+ String newline EmptyString
  end.



(** Every missing file can be created, readable and writable. *)
Definition create_any (path : string) : option (bool * bool) := Some (true, true).

Definition two_lines : string :=
  String "a" (String newline (String "b" EmptyString)).

(** [s] begins with [p]. *)
Fixpoint starts_with (p s : string) : bool :=
  match p, s with
  | EmptyString, _ => true
  | String _ _, EmptyString => false
  | String a p', String b s' => Ascii.eqb b a && starts_with p' s'
  end.

(** The leading run of alphanumeric characters of a string, and the rest. *)
Fixpoint leading_alnum (s : string) : string * string :=
  match s with
  | EmptyString => (EmptyString, EmptyString)
  | String c s' =>
      if isalnum c then
        let (run, rest) := leading_alnum s' in (String c run, rest)
      else (EmptyString, s)
  end.

(** The leading alphanumeric run is a scheme other than [file] and is
    followed at once by a colon and two slashes. *)
Definition remote_scheme (addr : string) : bool :=
  let (scheme, rest) := leading_alnum addr in
  negb (String.eqb scheme "file") && starts_with "://" rest.

(** No character of [s] is [c]. *)
Fixpoint no_char (c : ascii) (s : string) : bool :=
  match s with
  | EmptyString => true
  | String a s' => negb (Ascii.eqb a c) && no_char c s'
  end.

(** The path ends in the separator. *)
Definition ends_with_sep (path : string) : bool :=
  match str_last path with
  | Some c => Ascii.eqb c DIR_SEP_0
  | None => false
  end.

(** Every character of [s] is alphanumeric. *)
Fixpoint all_alnum (s : string) : bool :=
  match s with
  | EmptyString => true
  | String a s' => isalnum a && all_alnum s'
  end.

(** The body of [getBaseName] behind the removal of a trailing separator. *)
Definition base_name_of (path : string) : string :=
  let base := find_reverse_base DIR_SEP_0 (rev (list_ascii_of_string path)) in
  String.substring base (String.length path - base) path.


(** What [createPath] does with the segments of a path, one after the other:
    [path] grows by a separator and the segment; a directory found there is
    passed, anything else found there stops with failure, and a missing
    entry is made a directory if [mkdir] is let to, or stops with failure. *)
Fixpoint make_dirs (mkdir_allowed : gmap string entry -> string -> bool)
    (tree : gmap string entry) (path : string) (segs : list string)
    (fail_path : string) : bool * gmap string entry * string :=
  match segs with
  | [] => (true, tree, fail_path)
  | s :: segs' =>
      let path := path +:+ (DIR_SEP +:+ s) in
      match tree !! path with
      | Some Directory => make_dirs mkdir_allowed tree path segs' fail_path
      | Some NotDirectory => (false, tree, path)
      | None =>
          if mkdir_allowed tree path
          then make_dirs mkdir_allowed (<[path := Directory]> tree) path segs' fail_path
          else (false, tree, path)
      end
  end.

(** [mkdir] is let to create everything. *)
Definition mkdir_any (tree : gmap string entry) (path : string) : bool := true.

(** A tree that holds the directory [/a] and one that holds a file there. *)
Definition tree_with_directory : gmap string entry := {[ "/a"%string := Directory ]}.
Definition tree_with_file : gmap string entry := {[ "/a"%string := NotDirectory ]}.

(** The names [readdir] returns for a directory that holds [x] and [y]. *)
Definition names_of_two (path : string) : option (list string) :=
  Some ["."; ".."; "x"; "y"]%string.

(** The entries of a listing that are neither the dot nor the dot-dot. *)
Definition listed (names : list string) : list string :=
  List.filter
    (fun d_name => negb (String.eqb d_name ".") && negb (String.eqb d_name ".."))
    names.

(** The cleaned path made of the segments [dirs]: every segment behind a
    separator, the separator alone when there is no segment, and one
    separator more when [trailing]. *)
Definition cleaned_path (dirs : list string) (trailing : bool) : string :=
  let body :=
    match dirs with
    | [] => "/"%string
    | _ => slashed dirs
    end in
  if trailing then body +:+ "/" else body.

(** A segment of a cleaned path: not empty, not a dot, not a dot-dot, and
    without a separator in it. *)
Definition plain (d : string) : Prop :=
  d <> EmptyString /\ d <> "."%string /\ d <> ".."%string /\ no_sep d = true.

(** A file that may only be written and a file that may only be read. *)
Definition two_files : gmap string file :=
  {[ "f"%string := File "old" false true; "g"%string := File "kept" true false ]}.

(** Every path names a file of its own. *)
Definition literal (path : string) : string := path.

(** Name resolution in which a leading [./] is dropped, so that [s] and
    [./s] name one file. *)
Definition same_directory (path : string) : string :=
  match path with
  | String "." (String "/" rest) => rest
  | _ => path
  end.

(** * Properties *)

(** ** Outcomes *)

Lemma bind_fuel {A B : Type} (m : outcome A) (k : A -> outcome B) :
  m <> OutOfFuel -> (forall a, k a <> OutOfFuel) -> bind m k <> OutOfFuel.
Proof. destruct m; cbn [bind]; [auto | discriminate | congruence]. Qed.

Lemma of_option_fuel {A : Type} (o : option A) : of_option o <> OutOfFuel.
Proof. destruct o; discriminate. Qed.

Lemma pop_back_fuel {A : Type} (v : list A) : pop_back v <> OutOfFuel.
Proof. destruct v; discriminate. Qed.

(** ** Vectors *)

Lemma sizeZ_app {A : Type} (u v : list A) : sizeZ (u ++ v) = sizeZ u + sizeZ v.
Proof. unfold sizeZ. rewrite length_app. lia. Qed.

Lemma sizeZ_cons {A : Type} (x : A) (v : list A) : sizeZ (x :: v) = 1 + sizeZ v.
Proof. unfold sizeZ. cbn [length]. lia. Qed.

Lemma sizeZ_nil {A : Type} : sizeZ (@nil A) = 0.
Proof. reflexivity. Qed.

Lemma sizeZ_nonneg {A : Type} (v : list A) : 0 <= sizeZ v.
Proof. unfold sizeZ. lia. Qed.

Lemma to_nat_sizeZ {A : Type} (v : list A) : Z.to_nat (sizeZ v) = length v.
Proof. unfold sizeZ. apply Nat2Z.id. Qed.

(** Settles the integer comparisons that guard a container access. *)
Ltac bounds :=
  repeat match goal with
    | |- context [Z.leb ?a ?b] =>
        first [ rewrite (proj2 (Z.leb_le a b)) by lia
              | rewrite (proj2 (Z.leb_gt a b)) by lia ]
    | |- context [Z.ltb ?a ?b] =>
        first [ rewrite (proj2 (Z.ltb_lt a b)) by lia
              | rewrite (proj2 (Z.ltb_ge a b)) by lia ]
    | |- context [Z.eqb ?a ?b] =>
        first [ rewrite (proj2 (Z.eqb_eq a b)) by lia
              | rewrite (proj2 (Z.eqb_neq a b)) by lia ]
    end; cbn [andb orb negb].

Lemma deref_middle {A : Type} (u v : list A) (x : A) :
  deref (u ++ x :: v) (sizeZ u) = Ret x.
Proof.
  unfold deref. pose proof (sizeZ_nonneg u). bounds.
  rewrite to_nat_sizeZ, list_lookup_middle; reflexivity.
Qed.

Lemma deref_end {A : Type} (u : list A) : deref u (sizeZ u) = Undefined.
Proof.
  unfold deref. pose proof (sizeZ_nonneg u). bounds.
  rewrite to_nat_sizeZ, lookup_ge_None_2; [reflexivity | lia].
Qed.

Lemma erase_middle {A : Type} (u v : list A) (x : A) :
  erase (u ++ x :: v) (sizeZ u) = Ret (u ++ v).
Proof.
  unfold erase. rewrite sizeZ_app, sizeZ_cons.
  pose proof (sizeZ_nonneg u). pose proof (sizeZ_nonneg v). bounds.
  rewrite to_nat_sizeZ, take_app_length.
  replace (S (length u)) with (length (u ++ [x])) by (rewrite length_app; cbn; lia).
  rewrite (cons_middle x u v), app_assoc, drop_app_length. reflexivity.
Qed.

Lemma erase_range_pair {A : Type} (u v : list A) (x y : A) :
  erase_range (u ++ x :: y :: v) (sizeZ u) (sizeZ u + 2) = Ret (u ++ v).
Proof.
  unfold erase_range. rewrite sizeZ_app, !sizeZ_cons.
  pose proof (sizeZ_nonneg u). pose proof (sizeZ_nonneg v). bounds.
  rewrite to_nat_sizeZ, take_app_length.
  replace (Z.to_nat (sizeZ u + 2)) with (length (u ++ [x; y]))
    by (unfold sizeZ; rewrite length_app; cbn; lia).
  replace (u ++ x :: y :: v) with ((u ++ [x; y]) ++ v)
    by (rewrite <- app_assoc; reflexivity).
  rewrite drop_app_length. reflexivity.
Qed.

(** ** Strings *)

Lemma str_app_cons (c : ascii) (s t : string) :
  String c s +:+ t = String c (s +:+ t).
Proof. reflexivity. Qed.

Lemma str_app_nil_l (t : string) : EmptyString +:+ t = t.
Proof. reflexivity. Qed.

Lemma str_app_nil_r (s : string) : s +:+ EmptyString = s.
Proof.
  induction s as [|c s IH]; [reflexivity|]. rewrite str_app_cons, IH. reflexivity.
Qed.

Lemma str_app_assoc (s t u : string) : (s +:+ t) +:+ u = s +:+ (t +:+ u).
Proof.
  induction s as [|c s IH]; [reflexivity|]. rewrite !str_app_cons, IH. reflexivity.
Qed.

Lemma str_length_app (s t : string) :
  String.length (s +:+ t) = (String.length s + String.length t)%nat.
Proof.
  induction s as [|c s IH]; [reflexivity|].
  rewrite str_app_cons. cbn [String.length]. rewrite IH. reflexivity.
Qed.

Lemma str_get_app_r (s t : string) (k : nat) :
  String.get (String.length s + k) (s +:+ t) = String.get k t.
Proof.
  induction s as [|c s IH]; [reflexivity|].
  rewrite str_app_cons. cbn [String.length Nat.add String.get]. exact IH.
Qed.

Lemma str_substring_all (s : string) : String.substring 0 (String.length s) s = s.
Proof. induction s as [|c s IH]; cbn; [reflexivity | rewrite IH; reflexivity]. Qed.

Lemma str_last_cons (c d : ascii) (s : string) :
  str_last (String c (String d s)) = str_last (String d s).
Proof. reflexivity. Qed.

Lemma str_last_nonempty (c : ascii) (s : string) :
  exists b, str_last (String c s) = Some b.
Proof.
  revert c. induction s as [|d s IH]; intros c; cbn.
  - eauto.
  - destruct (IH d) as [b Hb]. exists b. exact Hb.
Qed.

Lemma str_last_app (s : string) (c : ascii) (t : string) :
  str_last (s +:+ String c t) = str_last (String c t).
Proof.
  induction s as [|a s IH]; [reflexivity|].
  rewrite str_app_cons. destruct s as [|b s].
  - rewrite str_app_nil_l in *. apply str_last_cons.
  - rewrite str_app_cons in *. rewrite str_last_cons. exact IH.
Qed.

Lemma str_last_no_sep (s : string) (c : ascii) :
  no_sep s = true -> str_last s = Some c -> Ascii.eqb c DIR_SEP_0 = false.
Proof.
  induction s as [|a s IH]; [discriminate|].
  cbn [no_sep]. intros H. apply andb_true_iff in H as [Ha Hs].
  apply negb_true_iff in Ha. destruct s as [|b s].
  - cbn. intros [= <-]. exact Ha.
  - rewrite str_last_cons. apply IH. exact Hs.
Qed.

Lemma str_last_rev (s : string) (c : ascii) :
  str_last s = Some c ->
  exists l, rev (list_ascii_of_string s) = c :: l.
Proof.
  induction s as [|d s IH]; [discriminate|].
  destruct s as [|e s].
  - cbn. intros [= ->]. exists []. reflexivity.
  - rewrite str_last_cons. intros H. destruct (IH H) as [l Hl].
    exists (l ++ [d]). change (list_ascii_of_string (String d (String e s)))
      with (d :: list_ascii_of_string (String e s)).
    cbn [rev]. rewrite Hl. reflexivity.
Qed.

Lemma length_list_ascii_of_string (s : string) :
  length (list_ascii_of_string s) = String.length s.
Proof. induction s as [|c s IH]; cbn; [reflexivity | rewrite IH; reflexivity]. Qed.

(** ** [split] *)


Lemma fields_no_sep (s : string) : Forall (fun d => no_sep d = true) (fields DIR_SEP_0 s).
Proof.
  induction s as [|c s IH]; cbn [fields].
  - repeat constructor.
  - destruct (Ascii.eqb c DIR_SEP_0) eqn:E.
    + constructor; [reflexivity | exact IH].
    + destruct (fields DIR_SEP_0 s) as [|f fs]; [repeat constructor; cbn; rewrite E; reflexivity|].
      inversion IH as [|? ? Hf Hfs]; subst. constructor; [|exact Hfs].
      cbn [no_sep]. rewrite E, Hf. reflexivity.
Qed.

Lemma split_no_sep (s : string) : Forall (fun d => no_sep d = true) (split s DIR_SEP_0).
Proof. destruct s; [constructor | apply fields_no_sep]. Qed.

(** The fields of a separator-free segment followed by a separator. *)
Lemma fields_segment (d rest : string) :
  no_sep d = true ->
  fields DIR_SEP_0 (d +:+ String DIR_SEP_0 rest) = d :: fields DIR_SEP_0 rest.
Proof.
  induction d as [|c d IH]; intros Hd.
  - rewrite str_app_nil_l. cbn [fields]. rewrite Ascii.eqb_refl. reflexivity.
  - cbn [no_sep] in Hd. apply andb_true_iff in Hd as [Hc Hd].
    apply negb_true_iff in Hc.
    rewrite str_app_cons. cbn [fields]. rewrite Hc, (IH Hd). reflexivity.
Qed.

Lemma fields_last_segment (d : string) :
  no_sep d = true -> fields DIR_SEP_0 d = [d].
Proof.
  induction d as [|c d IH]; intros Hd; [reflexivity|].
  cbn [no_sep] in Hd. apply andb_true_iff in Hd as [Hc Hd].
  apply negb_true_iff in Hc. cbn [fields]. rewrite Hc, (IH Hd). reflexivity.
Qed.

(** ** [getCleanPath] *)

Lemma clean_loop_resolve (segments : list string) :
  forall (fuel : nat) (stack : list string),
    (length segments <= fuel)%nat ->
    clean_loop RightToLeft fuel (reverse stack ++ segments) (sizeZ (reverse stack))
    = resolve stack segments.
Proof.
  induction segments as [|s segments IH]; intros fuel stack Hfuel.
  - rewrite app_nil_r. destruct fuel; cbn [clean_loop resolve erase_arguments];
      rewrite Z.eqb_refl; reflexivity.
  - destruct fuel as [|fuel]; [cbn in Hfuel; lia|].
    cbn [length] in Hfuel. cbn [clean_loop resolve erase_arguments].
    destruct (Z.eqb_spec (sizeZ (reverse stack)) (sizeZ (reverse stack ++ s :: segments)))
      as [E|_]; [rewrite sizeZ_app in E; unfold sizeZ in E; cbn [length] in E; lia|].
    rewrite deref_middle. cbn [bind].
    destruct (str_empty s || is_dot s) eqn:Hskip.
    + rewrite erase_middle. cbn [bind].
      replace (sizeZ (reverse stack) - 1 + 1) with (sizeZ (reverse stack)) by lia.
      apply IH. lia.
    + destruct (is_dotdot s) eqn:Hdd.
      * destruct stack as [|x stack].
        -- reflexivity.
        -- rewrite reverse_cons, <- app_assoc. cbn [app].
           replace (sizeZ (reverse stack ++ [x]) - 1) with (sizeZ (reverse stack))
             by (rewrite sizeZ_app; unfold sizeZ; cbn [length]; lia).
           replace (sizeZ (reverse stack ++ [x]) + 1) with (sizeZ (reverse stack) + 2)
             by (rewrite sizeZ_app; unfold sizeZ; cbn [length]; lia).
           rewrite erase_range_pair. cbn [bind].
           replace (sizeZ (reverse stack) - 1 + 1) with (sizeZ (reverse stack)) by lia.
           apply IH. lia.
      * replace (reverse stack ++ s :: segments) with (reverse (s :: stack) ++ segments)
          by (rewrite reverse_cons, <- app_assoc; reflexivity).
        replace (sizeZ (reverse stack) + 1) with (sizeZ (reverse (s :: stack)))
          by (rewrite reverse_cons, sizeZ_app; unfold sizeZ; cbn [length]; lia).
        apply IH. lia.
Qed.

Lemma resolve_fuel (segments : list string) :
  forall stack, resolve stack segments <> OutOfFuel.
Proof.
  induction segments as [|s segments IH]; intros stack; cbn [resolve].
  - discriminate.
  - destruct (str_empty s || is_dot s); [apply IH|].
    destruct (is_dotdot s); [|apply IH].
    destruct stack; [discriminate | apply IH].
Qed.

(** The empty segments that [split] reports do not matter to the loop of
    [getCleanPath]. *)
Lemma resolve_nonempty (segs : list string) :
  forall stack, resolve stack segs = resolve stack (List.filter nonempty segs).
Proof.
  induction segs as [|s segs IH]; intros stack; [reflexivity|].
  cbn [List.filter]. unfold nonempty at 1. destruct s as [|c s].
  - cbn [str_empty negb resolve orb]. apply IH.
  - cbn [str_empty negb resolve orb].
    destruct (is_dot (String c s)); [apply IH|].
    destruct (is_dotdot (String c s)); [|apply IH].
    destruct stack; [reflexivity | apply IH].
Qed.

(** In general the loop is undefined as soon as a dot-dot segment meets the
    empty stack, whatever follows it. *)
Lemma resolve_dotdot_at_root (segments : list string) :
  resolve [] (".."%string :: segments) = Undefined.
Proof. reflexivity. Qed.

Lemma absolute_back (path : string) :
  isAbsolutePath path = true -> exists b, str_last path = Some b.
Proof.
  destruct path as [|c path]; [discriminate|]. intros _. apply str_last_nonempty.
Qed.

Lemma getCleanPath_resolve (path : string) (b : ascii) :
  isAbsolutePath path = true ->
  str_last path = Some b ->
  getCleanPath RightToLeft path =
    (dirs <- resolve [] (split path DIR_SEP_0) ;;
     Ret (join_clean dirs (Ascii.eqb b DIR_SEP_0))).
Proof.
  intros Habs Hb. unfold getCleanPath, str_back. rewrite Habs, Hb. cbn [negb of_option bind].
  pose proof (clean_loop_resolve (split path DIR_SEP_0)
                (length (split path DIR_SEP_0)) [] (le_n _)) as H.
  cbn [reverse app] in H. change (sizeZ (reverse [])) with 0 in H.
  change (reverse [] ++ split path DIR_SEP_0) with (split path DIR_SEP_0) in H.
  rewrite H. destruct (resolve [] (split path DIR_SEP_0)) as [dirs| |]; reflexivity.
Qed.

(** The fuel given to the loop of [getCleanPath] always suffices. *)
Lemma getCleanPath_fuel (path : string) : getCleanPath RightToLeft path <> OutOfFuel.
Proof.
  destruct (isAbsolutePath path) eqn:Habs.
  - destruct (absolute_back path Habs) as [b Hb].
    rewrite (getCleanPath_resolve path b Habs Hb).
    pose proof (resolve_fuel (split path DIR_SEP_0) []) as H.
    destruct (resolve [] (split path DIR_SEP_0)); [discriminate | discriminate | congruence].
  - unfold getCleanPath. rewrite Habs. discriminate.
Qed.

(** Without [WIN], a path that is not absolute is returned unchanged. *)
Theorem getCleanPath_not_absolute (order : arg_order) (path : string) :
  isAbsolutePath path = false -> getCleanPath order path = Ret path.
Proof. intros H. unfold getCleanPath. rewrite H. reflexivity. Qed.

Lemma getCleanPath_not_absolute_witness :
  isAbsolutePath "rel/../x" = false /\
  getCleanPath RightToLeft "rel/../x" = Ret "rel/../x"%string.
Proof.
  split; [reflexivity|].
  apply (getCleanPath_not_absolute RightToLeft "rel/../x"). reflexivity.
Defined.

(** With the arguments of [erase] evaluated left to right the call erases
    the empty range at [itr] and steps the iterator back: the loop comes
    back to the same dot-dot segment for ever. *)
Lemma clean_loop_left_to_right_cycles (fuel : nat) :
  clean_loop LeftToRight fuel ["a"; ".."; ".."; "b"]%string 0 = OutOfFuel /\
  clean_loop LeftToRight fuel ["a"; ".."; ".."; "b"]%string 1 = OutOfFuel.
Proof.
  induction fuel as [|fuel [IH0 IH1]]; [split; reflexivity|].
  split.
  - change (clean_loop LeftToRight (S fuel) ["a"; ".."; ".."; "b"]%string 0)
      with (clean_loop LeftToRight fuel ["a"; ".."; ".."; "b"]%string 1).
    exact IH1.
  - change (clean_loop LeftToRight (S fuel) ["a"; ".."; ".."; "b"]%string 1)
      with (clean_loop LeftToRight fuel ["a"; ".."; ".."; "b"]%string 0).
    exact IH0.
Qed.

(** C2.  The claim has every excess dot-dot segment absorbed at the root, so
    that cleaning [/../../a] gives [/a] and cleaning [/a/../../b] gives [/b].
    In the code a dot-dot segment that is the first remaining one makes
    [dirs.erase(itr--, itr--+1)] erase the range from one position before
    [begin()]: neither call has a defined result.  Evaluating the arguments
    left to right does not help: the first call then reads [dirs] one
    position before [begin()], and the second never returns. *)
Theorem getCleanPath_dotdot_at_root_undefined :
  getCleanPath RightToLeft "/../../a" = Undefined /\
  getCleanPath RightToLeft "/a/../../b" = Undefined /\
  getCleanPath LeftToRight "/../../a" = Undefined /\
  (forall fuel, clean_loop LeftToRight fuel ["a"; ".."; ".."; "b"]%string 0 = OutOfFuel).
Proof.
  repeat split; try reflexivity.
  intros fuel. exact (proj1 (clean_loop_left_to_right_cycles fuel)).
Qed.

(** A dot-dot segment that has a predecessor does remove itself and it. *)
Example getCleanPath_dotdot_pops :
  getCleanPath RightToLeft "/a/./b/../c" = Ret "/a/c"%string /\
  getCleanPath RightToLeft "/a/b/../../c/" = Ret "/c/"%string.
Proof. split; reflexivity. Qed.

(** C3.  The claim has the root cleaned to itself, the trailing separator
    being added only when the result does not end in one.  The code adds
    [DIR_SEP] once because [dirs] is empty and once more because the path
    ended in a separator: the root is cleaned to two separators. *)
Theorem getCleanPath_root_doubles_separator (order : arg_order) :
  getCleanPath order "/" = Ret "//"%string.
Proof. destruct order; reflexivity. Qed.

(** The same happens for every absolute path that ends in a separator and
    whose segments are all removed. *)
Lemma getCleanPath_all_removed (path : string) :
  isAbsolutePath path = true ->
  str_last path = Some DIR_SEP_0 ->
  resolve [] (split path DIR_SEP_0) = Ret [] ->
  getCleanPath RightToLeft path = Ret "//"%string.
Proof.
  intros Habs Hb Hres. rewrite (getCleanPath_resolve path _ Habs Hb), Hres. reflexivity.
Qed.

Example getCleanPath_all_removed_ex :
  getCleanPath RightToLeft "/a/../" = Ret "//"%string /\
  getCleanPath RightToLeft "/./" = Ret "//"%string /\
  getCleanPath RightToLeft "/a/.." = Ret "/"%string.
Proof. repeat split; reflexivity. Qed.

(** C4.  The claim is idempotence on absolute paths.  Cleaning [/.] gives
    the root, and cleaning the root gives two separators. *)
Theorem getCleanPath_not_idempotent (order : arg_order) :
  getCleanPath order "/." = Ret "/"%string /\
  (path <- getCleanPath order "/." ;; getCleanPath order path) = Ret "//"%string /\
  (path <- getCleanPath order "/." ;; getCleanPath order path) <> getCleanPath order "/.".
Proof. destruct order; repeat split; try reflexivity; discriminate. Qed.

(** *** Idempotence away from the root *)

Lemma append_dirs_slashed (dirs : list string) :
  forall path, append_dirs path dirs = path +:+ slashed dirs.
Proof.
  induction dirs as [|dir dirs IH]; intros path; cbn [append_dirs slashed].
  - rewrite str_app_nil_r. reflexivity.
  - rewrite IH, !str_app_assoc. reflexivity.
Qed.

Lemma fields_slashed (dirs : list string) (tail : string) :
  Forall (fun d => kept d = true) dirs ->
  fields DIR_SEP_0 (slashed dirs +:+ String DIR_SEP_0 tail)
  = EmptyString :: dirs ++ fields DIR_SEP_0 tail.
Proof.
  induction dirs as [|d dirs IH]; intros Hk.
  - cbn [slashed app]. rewrite str_app_nil_l. cbn [fields].
    rewrite Ascii.eqb_refl. reflexivity.
  - inversion Hk as [|? ? Hd Hds]; subst. specialize (IH Hds).
    unfold kept in Hd. apply andb_true_iff in Hd as [_ Hd].
    cbn [slashed]. unfold DIR_SEP. rewrite !str_app_assoc, str_app_cons, str_app_nil_l.
    change "/"%char with DIR_SEP_0.
    cbn [fields]. rewrite Ascii.eqb_refl.
    destruct dirs as [|d' dirs].
    + cbn [slashed] in *. rewrite str_app_nil_l. rewrite (fields_segment d tail Hd).
      reflexivity.
    + cbn [slashed] in *. unfold DIR_SEP in *.
      rewrite !str_app_assoc, str_app_cons, str_app_nil_l in *.
      change "/"%char with DIR_SEP_0 in *.
      rewrite (fields_segment d _ Hd).
      cbn [fields] in IH. rewrite Ascii.eqb_refl in IH.
      injection IH as IH. rewrite IH. reflexivity.
Qed.

Lemma fields_slashed_end (dirs : list string) :
  dirs <> [] ->
  Forall (fun d => kept d = true) dirs ->
  fields DIR_SEP_0 (slashed dirs) = EmptyString :: dirs.
Proof.
  induction dirs as [|d dirs IH]; intros Hne Hk; [congruence|].
  inversion Hk as [|? ? Hd Hds]; subst.
  unfold kept in Hd. apply andb_true_iff in Hd as [_ Hd].
  cbn [slashed]. unfold DIR_SEP. rewrite str_app_cons, str_app_nil_l.
  change "/"%char with DIR_SEP_0.
  cbn [fields]. rewrite Ascii.eqb_refl.
  destruct dirs as [|d' dirs].
  - cbn [slashed]. rewrite str_app_nil_r, (fields_last_segment d Hd). reflexivity.
  - assert (Hne' : d' :: dirs <> []) by discriminate.
    specialize (IH Hne' Hds). cbn [slashed] in *. unfold DIR_SEP in *.
    rewrite str_app_cons, str_app_nil_l in *. change "/"%char with DIR_SEP_0 in *.
    rewrite (fields_segment d _ Hd).
    cbn [fields] in IH. rewrite Ascii.eqb_refl in IH.
    injection IH as IH. rewrite IH. reflexivity.
Qed.

(** Kept segments are pushed one after the other. *)
Lemma resolve_kept (dirs : list string) :
  forall stack segments,
    Forall (fun d => kept d = true) dirs ->
    resolve stack (dirs ++ segments) = resolve (reverse dirs ++ stack) segments.
Proof.
  induction dirs as [|d dirs IH]; intros stack segments Hk; [reflexivity|].
  inversion Hk as [|? ? Hd Hds]; subst.
  unfold kept in Hd. apply andb_true_iff in Hd as [Hd _].
  apply andb_true_iff in Hd as [Hskip Hdd].
  apply negb_true_iff in Hskip. apply negb_true_iff in Hdd.
  cbn [app resolve]. rewrite Hskip, Hdd, (IH _ _ Hds), reverse_cons, <- app_assoc.
  reflexivity.
Qed.

(** What the loop returns is made of kept segments. *)
Lemma resolve_returns_kept (segments : list string) :
  forall stack dirs,
    Forall (fun d => no_sep d = true) segments ->
    Forall (fun d => kept d = true) stack ->
    resolve stack segments = Ret dirs ->
    Forall (fun d => kept d = true) dirs.
Proof.
  induction segments as [|s segments IH]; intros stack dirs Hseg Hst; cbn [resolve].
  - intros [= <-]. apply Forall_reverse. exact Hst.
  - inversion Hseg as [|? ? Hs Hsegs]; subst.
    destruct (str_empty s || is_dot s) eqn:Hskip; [apply IH; assumption|].
    destruct (is_dotdot s) eqn:Hdd.
    + destruct stack as [|x stack]; [discriminate|].
      inversion Hst; subst. apply IH; assumption.
    + apply IH; [assumption|]. constructor; [|assumption].
      unfold kept. rewrite Hskip, Hdd, Hs. reflexivity.
Qed.

Lemma kept_nonempty (d : string) : kept d = true -> exists c d', d = String c d'.
Proof.
  destruct d as [|c d']; [discriminate | eauto].
Qed.

Lemma slashed_cons_shape (d : string) (dirs : list string) :
  slashed (d :: dirs) = String DIR_SEP_0 (d +:+ slashed dirs).
Proof. reflexivity. Qed.

Lemma slashed_last (dirs : list string) :
  dirs <> [] ->
  Forall (fun d => kept d = true) dirs ->
  exists c, str_last (slashed dirs) = Some c /\ Ascii.eqb c DIR_SEP_0 = false.
Proof.
  induction dirs as [|d dirs IH]; intros Hne Hk; [congruence|].
  inversion Hk as [|? ? Hd Hds]; subst.
  rewrite slashed_cons_shape.
  destruct (kept_nonempty d Hd) as [a [d' ->]].
  rewrite str_app_cons, str_last_cons.
  destruct dirs as [|e dirs].
  - cbn [slashed]. rewrite str_app_nil_r.
    destruct (str_last_nonempty a d') as [c Hc]. exists c. split; [exact Hc|].
    unfold kept in Hd. apply andb_true_iff in Hd as [_ Hd].
    exact (str_last_no_sep _ c Hd Hc).
  - assert (Hne' : e :: dirs <> []) by discriminate.
    destruct (IH Hne' Hds) as [c [Hc Hsep]]. exists c. split; [|exact Hsep].
    rewrite slashed_cons_shape in *. rewrite <- str_app_cons, str_last_app. exact Hc.
Qed.

Lemma getCleanPath_join_clean (dirs : list string) (flag : bool) :
  dirs <> [] ->
  Forall (fun d => kept d = true) dirs ->
  getCleanPath RightToLeft (join_clean dirs flag) = Ret (join_clean dirs flag).
Proof.
  intros Hne Hk.
  assert (Hjoin : join_clean dirs flag =
                  if flag then slashed dirs +:+ DIR_SEP else slashed dirs).
  { unfold join_clean. destruct dirs as [|d dirs]; [congruence|].
    rewrite append_dirs_slashed, str_app_nil_l. reflexivity. }
  assert (Habs : isAbsolutePath (join_clean dirs flag) = true).
  { rewrite Hjoin. destruct dirs as [|d dirs]; [congruence|].
    rewrite slashed_cons_shape. destruct flag; reflexivity. }
  destruct (slashed_last dirs Hne Hk) as [c [Hc Hsep]].
  assert (Hlast : str_last (join_clean dirs flag)
                  = Some (if flag then DIR_SEP_0 else c)).
  { rewrite Hjoin. destruct flag; [|exact Hc].
    unfold DIR_SEP. rewrite str_last_app. reflexivity. }
  assert (Hflag : Ascii.eqb (if flag then DIR_SEP_0 else c) DIR_SEP_0 = flag).
  { destruct flag; [reflexivity | exact Hsep]. }
  assert (Hsplit : resolve [] (split (join_clean dirs flag) DIR_SEP_0) = Ret dirs).
  { assert (Hs : split (join_clean dirs flag) DIR_SEP_0
                 = fields DIR_SEP_0 (join_clean dirs flag)).
    { destruct (join_clean dirs flag); [discriminate Habs | reflexivity]. }
    rewrite Hs, Hjoin. destruct flag.
    - unfold DIR_SEP. change "/"%char with DIR_SEP_0.
      rewrite (fields_slashed dirs EmptyString Hk).
      cbn [fields resolve str_empty orb].
      rewrite (resolve_kept dirs [] [EmptyString] Hk).
      cbn [resolve str_empty orb]. rewrite app_nil_r, reverse_involutive. reflexivity.
    - rewrite (fields_slashed_end dirs Hne Hk).
      cbn [resolve str_empty orb].
      pose proof (resolve_kept dirs [] [] Hk) as H. rewrite app_nil_r in H.
      rewrite H. cbn [resolve]. rewrite app_nil_r, reverse_involutive. reflexivity. }
  rewrite (getCleanPath_resolve _ _ Habs Hlast), Hsplit. cbn [bind].
  rewrite Hflag. reflexivity.
Qed.

(** Cleaning twice is cleaning once for every path whose cleaned form is
    defined and is not the bare root. *)
Theorem getCleanPath_idempotent_off_root (path cleaned : string) :
  getCleanPath RightToLeft path = Ret cleaned ->
  cleaned <> "/"%string ->
  getCleanPath RightToLeft cleaned = Ret cleaned.
Proof.
  intros Hclean Hroot.
  destruct (isAbsolutePath path) eqn:Habs.
  - destruct (absolute_back path Habs) as [b Hb].
    rewrite (getCleanPath_resolve path b Habs Hb) in Hclean.
    destruct (resolve [] (split path DIR_SEP_0)) as [dirs| |] eqn:Hres;
      try discriminate.
    cbn [bind] in Hclean. injection Hclean as <-.
    pose proof (resolve_returns_kept _ [] dirs (split_no_sep path)
                  (List.Forall_nil _) Hres) as Hk.
    destruct dirs as [|d dirs].
    + destruct (Ascii.eqb b DIR_SEP_0); [reflexivity|].
      exfalso. apply Hroot. reflexivity.
    + apply getCleanPath_join_clean; [discriminate | exact Hk].
  - unfold getCleanPath in Hclean. rewrite Habs in Hclean.
    cbn [negb] in Hclean. injection Hclean as <-.
    unfold getCleanPath. rewrite Habs. reflexivity.
Qed.

Lemma getCleanPath_idempotent_off_root_witness :
  getCleanPath RightToLeft "/a//./b/../c/" = Ret "/a/c/"%string /\
  "/a/c/"%string <> "/"%string /\
  getCleanPath RightToLeft "/a/c/" = Ret "/a/c/"%string.
Proof.
  split; [reflexivity|]. split; [discriminate|].
  apply (getCleanPath_idempotent_off_root "/a//./b/../c/" "/a/c/");
    [reflexivity | discriminate].
Defined.

(** ** [getRelativePath] *)

(** Without [WIN], when one of the two paths is not absolute the result is
    the empty string. *)
Theorem getRelativePath_not_absolute (isFile : string -> bool) (path1 path2 : string) :
  isAbsolutePath path1 = false \/ isAbsolutePath path2 = false ->
  getRelativePath isFile path1 path2 = Ret EmptyString.
Proof.
  intros [H|H]; unfold getRelativePath; rewrite H; cbn [negb orb].
  - reflexivity.
  - rewrite orb_true_r. reflexivity.
Qed.

Lemma getRelativePath_not_absolute_witness :
  (isAbsolutePath "rel" = false \/ isAbsolutePath "/abs" = false) /\
  getRelativePath no_regular_file "rel" "/abs" = Ret EmptyString /\
  getRelativePath no_regular_file "/abs" "rel" = Ret EmptyString.
Proof.
  split; [left; reflexivity|]. split.
  - apply (getRelativePath_not_absolute no_regular_file "rel" "/abs"). left. reflexivity.
  - apply (getRelativePath_not_absolute no_regular_file "/abs" "rel"). right. reflexivity.
Defined.

Lemma erase_empty_loop_filter (u : list string) :
  forall (v : list string) (fuel : nat),
    (length u <= fuel)%nat ->
    erase_empty_loop fuel (u ++ v) (sizeZ u - 1) = Ret (List.filter nonempty u ++ v).
Proof.
  induction u as [|x u IH] using rev_ind; intros v fuel Hfuel.
  - destruct fuel; reflexivity.
  - rewrite length_app in Hfuel. cbn [length] in Hfuel.
    destruct fuel as [|fuel]; [lia|].
    rewrite sizeZ_app, sizeZ_cons, sizeZ_nil.
    replace (sizeZ u + (1 + 0) - 1) with (sizeZ u) by lia.
    cbn [erase_empty_loop]. pose proof (sizeZ_nonneg u). bounds.
    rewrite <- app_assoc. cbn [app]. rewrite deref_middle. cbn [bind].
    rewrite List.filter_app. cbn [List.filter]. unfold nonempty at 2.
    destruct (str_empty x).
    + rewrite erase_middle. cbn [bind negb]. rewrite app_nil_r. apply IH. lia.
    + cbn [negb]. rewrite <- app_assoc. cbn [app]. apply IH. lia.
Qed.

Lemma erase_empty_filter (dirs : list string) :
  erase_empty dirs = Ret (List.filter nonempty dirs).
Proof.
  unfold erase_empty.
  pose proof (erase_empty_loop_filter dirs [] (length dirs) (le_n _)) as H.
  rewrite !app_nil_r in H. exact H.
Qed.

(** The inner loop reads [n] elements of [dirs_path2] from index [i] on. *)
Lemma descend_loop_spec (n : nat) :
  forall (dirs1 u v : list string) (acc : string) (fuel : nat),
    length dirs1 = (length u + n)%nat ->
    (n <= fuel)%nat ->
    descend_loop fuel dirs1 (u ++ v) (sizeZ u) acc =
    if (n <=? length v)%nat then Ret (acc +:+ trailed (take n v)) else Undefined.
Proof.
  induction n as [|n IH]; intros dirs1 u v acc fuel Hlen Hfuel.
  - assert (E : sizeZ u = sizeZ dirs1) by (unfold sizeZ; lia).
    destruct fuel; cbn [descend_loop]; rewrite E, Z.eqb_refl;
      cbn [Nat.leb take trailed]; rewrite str_app_nil_r; reflexivity.
  - destruct fuel as [|fuel]; [lia|]. cbn [descend_loop].
    assert (E : sizeZ u <> sizeZ dirs1) by (unfold sizeZ; lia).
    bounds. destruct v as [|x v].
    + rewrite app_nil_r, deref_end. reflexivity.
    + rewrite deref_middle. cbn [bind].
      replace (u ++ x :: v) with ((u ++ [x]) ++ v) by (rewrite <- app_assoc; reflexivity).
      replace (sizeZ u + 1) with (sizeZ (u ++ [x]))
        by (rewrite sizeZ_app, sizeZ_cons, sizeZ_nil; lia).
      rewrite (IH dirs1 (u ++ [x]) v) by (rewrite ?length_app; cbn [length]; lia).
      cbn [length Nat.leb]. destruct (n <=? length v)%nat; [|reflexivity].
      cbn [take trailed]. rewrite !str_app_assoc. reflexivity.
Qed.

Lemma climb_loop_spec (r1 : list string) :
  forall (r2 u1 u2 : list string) (acc : string) (fuel : nat),
    length u1 = length u2 ->
    (length r2 <= length r1)%nat ->
    (length r1 <= fuel)%nat ->
    climb_loop fuel (u1 ++ r1) (u2 ++ r2) (sizeZ u1) acc =
    if (shared r1 r2 =? length r1)%nat then Ret acc
    else if (length r1 =? length r2)%nat
         then Ret (acc +:+ ".." +:+ DIR_SEP +:+ trailed (drop (shared r1 r2) r2))
         else Undefined.
Proof.
  induction r1 as [|a r1 IH]; intros r2 u1 u2 acc fuel Hu Hlen Hfuel.
  - rewrite app_nil_r. destruct fuel; cbn [climb_loop]; rewrite Z.eqb_refl;
      destruct r2; reflexivity.
  - destruct fuel as [|fuel]; [cbn [length] in Hfuel; lia|].
    cbn [length] in Hlen, Hfuel.
    assert (Hz : sizeZ u1 = sizeZ u2) by (unfold sizeZ; lia).
    cbn [climb_loop]. rewrite !sizeZ_app, sizeZ_cons.
    pose proof (sizeZ_nonneg r1). pose proof (sizeZ_nonneg u1). bounds.
    set (go := descend_loop (S fuel) (u1 ++ a :: r1)).
    destruct r2 as [|b r2].
    + rewrite sizeZ_nil.
      destruct (Z.gtb_spec (sizeZ u2 + 0) (sizeZ u1)) as [Hgt|_]; [lia|].
      cbn [bind shared Nat.eqb length]. subst go. rewrite Hz.
      rewrite (descend_loop_spec (S (length r1)) (u1 ++ a :: r1) u2 []);
        [reflexivity | rewrite length_app; cbn [length]; lia | lia].
    + rewrite sizeZ_cons. pose proof (sizeZ_nonneg r2).
      destruct (Z.gtb_spec (sizeZ u2 + (1 + sizeZ r2)) (sizeZ u1)) as [_|Hle]; [|lia].
      rewrite deref_middle. cbn [bind]. rewrite Hz, deref_middle. cbn [bind shared].
      cbn [length] in Hlen.
      destruct (String.eqb a b) eqn:Hab.
      * apply String.eqb_eq in Hab. subst b.
        replace (u1 ++ a :: r1) with ((u1 ++ [a]) ++ r1) by (rewrite <- app_assoc; reflexivity).
        replace (u2 ++ a :: r2) with ((u2 ++ [a]) ++ r2) by (rewrite <- app_assoc; reflexivity).
        replace (sizeZ u2 + 1) with (sizeZ (u1 ++ [a]))
          by (rewrite sizeZ_app, sizeZ_cons, sizeZ_nil; lia).
        rewrite (IH r2 (u1 ++ [a]) (u2 ++ [a]) acc fuel)
          by (rewrite ?length_app; cbn [length]; lia).
        cbn [length Nat.eqb drop]. reflexivity.
      * cbn [Nat.eqb drop length]. subst go.
        rewrite (descend_loop_spec (S (length r1)) (u1 ++ a :: r1) u2 (b :: r2));
          [| rewrite length_app; cbn [length]; lia | lia].
        cbn [length Nat.leb Nat.eqb].
        destruct (Nat.eqb_spec (length r1) (length r2)) as [E|E].
        -- rewrite E, Nat.leb_refl.
           replace (take (S (length r2)) (b :: r2)) with (b :: r2)
             by (symmetry; apply take_ge; cbn [length]; lia).
           rewrite !str_app_assoc. reflexivity.
        -- destruct (Nat.leb_spec (length r1) (length r2)); [lia | reflexivity].
Qed.

Lemma differing_nil (dirs2 : list string) : differing [] dirs2 = dirs2.
Proof. destruct dirs2; reflexivity. Qed.

Lemma suffix_loop_rest (r2 : list string) :
  forall (dirs1 u2 : list string) (acc : string) (fuel : nat),
    (length dirs1 <= length u2)%nat ->
    (length r2 <= fuel)%nat ->
    suffix_loop fuel dirs1 (u2 ++ r2) (sizeZ u2) acc = Ret (acc +:+ trailed r2).
Proof.
  induction r2 as [|b r2 IH]; intros dirs1 u2 acc fuel Hu Hfuel.
  - rewrite app_nil_r. destruct fuel; cbn [suffix_loop]; rewrite Z.eqb_refl;
      cbn [trailed]; rewrite str_app_nil_r; reflexivity.
  - destruct fuel as [|fuel]; [cbn [length] in Hfuel; lia|].
    cbn [length] in Hfuel.
    cbn [suffix_loop]. rewrite !sizeZ_app, sizeZ_cons.
    pose proof (sizeZ_nonneg r2). pose proof (sizeZ_nonneg u2). bounds.
    destruct (Z.gtb_spec (sizeZ dirs1) (sizeZ u2)) as [Hgt|_];
      [unfold sizeZ in Hgt; lia|].
    cbn [bind]. rewrite deref_middle. cbn [bind].
    replace (u2 ++ b :: r2) with ((u2 ++ [b]) ++ r2) by (rewrite <- app_assoc; reflexivity).
    replace (sizeZ u2 + 1) with (sizeZ (u2 ++ [b]))
      by (rewrite sizeZ_app, sizeZ_cons, sizeZ_nil; lia).
    rewrite IH by (rewrite ?length_app; cbn [length]; lia).
    cbn [trailed]. rewrite !str_app_assoc. reflexivity.
Qed.

Lemma suffix_loop_spec (r2 : list string) :
  forall (r1 u1 u2 : list string) (acc : string) (fuel : nat),
    length u1 = length u2 ->
    (length r2 <= fuel)%nat ->
    suffix_loop fuel (u1 ++ r1) (u2 ++ r2) (sizeZ u2) acc =
    Ret (acc +:+ trailed (differing r1 r2)).
Proof.
  induction r2 as [|b r2 IH]; intros r1 u1 u2 acc fuel Hu Hfuel.
  - rewrite app_nil_r. destruct fuel; cbn [suffix_loop]; rewrite Z.eqb_refl;
      cbn [differing trailed]; rewrite str_app_nil_r; reflexivity.
  - destruct r1 as [|a r1].
    { rewrite differing_nil. apply suffix_loop_rest; [rewrite app_nil_r; lia | exact Hfuel]. }
    destruct fuel as [|fuel]; [cbn [length] in Hfuel; lia|].
    cbn [length] in Hfuel.
    assert (Hz : sizeZ u1 = sizeZ u2) by (unfold sizeZ; lia).
    cbn [suffix_loop]. rewrite !sizeZ_app, !sizeZ_cons.
    pose proof (sizeZ_nonneg r2). pose proof (sizeZ_nonneg u2).
    pose proof (sizeZ_nonneg r1). bounds.
    destruct (Z.gtb_spec (sizeZ u1 + (1 + sizeZ r1)) (sizeZ u2)) as [_|Hle]; [|lia].
    rewrite deref_middle.
    rewrite <- Hz, deref_middle. cbn [bind differing].
    replace (u1 ++ a :: r1) with ((u1 ++ [a]) ++ r1) by (rewrite <- app_assoc; reflexivity).
    replace (u2 ++ b :: r2) with ((u2 ++ [b]) ++ r2) by (rewrite <- app_assoc; reflexivity).
    replace (sizeZ u1 + 1) with (sizeZ (u2 ++ [b]))
      by (rewrite sizeZ_app, sizeZ_cons, sizeZ_nil; lia).
    destruct (String.eqb a b).
    + apply IH; [rewrite !length_app; cbn [length]; lia | lia].
    + rewrite (IH r1 (u1 ++ [a]) (u2 ++ [b]));
        [| rewrite !length_app; cbn [length]; lia | lia].
      cbn [trailed]. rewrite !str_app_assoc. reflexivity.
Qed.

Lemma shared_le (dirs1 dirs2 : list string) :
  (shared dirs1 dirs2 <= length dirs2)%nat.
Proof.
  revert dirs2. induction dirs1 as [|a dirs1 IH]; intros [|b dirs2]; cbn [shared length];
    try lia.
  destruct (String.eqb a b); [specialize (IH dirs2)|]; lia.
Qed.

(** The two branches of [getRelativePath] on any two segment sequences. *)
Lemma relative_branches (d1 d2 : list string) :
  (if sizeZ d1 >=? sizeZ d2
   then climb_loop (length d1) d1 d2 0 EmptyString
   else suffix_loop (length d2) d1 d2 0 EmptyString)
  = relative d1 d2.
Proof.
  unfold relative. rewrite Z.geb_leb.
  destruct (Z.leb_spec (sizeZ d2) (sizeZ d1)) as [Hle|Hgt]; unfold sizeZ in *.
  - pose proof (climb_loop_spec d1 d2 [] [] EmptyString (length d1) eq_refl) as H.
    cbn [app] in H. change (sizeZ []) with 0 in H. rewrite H by lia. clear H.
    pose proof (shared_le d1 d2) as Hsh.
    destruct (Nat.ltb_spec (length d2) (length d1)) as [Hlt|Hge].
    + destruct (Nat.eqb_spec (shared d1 d2) (length d1)); [lia|].
      destruct (Nat.eqb_spec (length d1) (length d2)); [lia|]. reflexivity.
    + destruct (Nat.eqb_spec (length d1) (length d2)); [|lia].
      destruct (shared d1 d2 =? length d1)%nat; reflexivity.
  - pose proof (suffix_loop_spec d2 d1 [] [] EmptyString (length d2) eq_refl (le_n _)) as H.
    cbn [app] in H. change (sizeZ []) with 0 in H. rewrite H. clear H.
    destruct (Nat.ltb_spec (length d2) (length d1)); [lia|].
    destruct (Nat.eqb_spec (length d1) (length d2)); [lia|]. reflexivity.
Qed.

(** Between two absolute paths, the second one ending in a separator and the
    first one not a regular file, the branches run on the segments of the
    two paths. *)
Lemma getRelativePath_segments
    (isFile : string -> bool) (path1 path2 : string) :
  isAbsolutePath path1 = true ->
  isAbsolutePath path2 = true ->
  str_last path2 = Some DIR_SEP_0 ->
  isFile path1 = false ->
  getRelativePath isFile path1 path2 =
    (if sizeZ (segments path1) >=? sizeZ (segments path2)
     then climb_loop (length (segments path1)) (segments path1) (segments path2)
            0 EmptyString
     else suffix_loop (length (segments path2)) (segments path1) (segments path2)
            0 EmptyString).
Proof.
  intros Habs1 Habs2 Hlast Hfile.
  unfold getRelativePath, str_back. rewrite Habs1, Habs2, Hlast, Hfile.
  cbn [negb orb of_option bind]. rewrite !erase_empty_filter.
  fold (segments path1). fold (segments path2).
  change (Ascii.eqb DIR_SEP_0 "/") with true. cbn [negb bind fst snd].
  match goal with |- bind ?m _ = _ => destruct m; reflexivity end.
Qed.


(** Whenever the first path has more segments than the second, the climb
    loop leaves [dirs_path2]. *)
Corollary getRelativePath_from_deeper
    (isFile : string -> bool) (path1 path2 : string) :
  isAbsolutePath path1 = true ->
  isAbsolutePath path2 = true ->
  str_last path2 = Some DIR_SEP_0 ->
  isFile path1 = false ->
  (length (segments path2) < length (segments path1))%nat ->
  getRelativePath isFile path1 path2 = Undefined.
Proof.
  intros Habs1 Habs2 Hlast Hfile Hlt.
  rewrite (getRelativePath_segments isFile path1 path2 Habs1 Habs2 Hlast Hfile), relative_branches.
  unfold relative. destruct (Nat.ltb_spec (length (segments path2)) (length (segments path1)));
    [reflexivity | lia].
Qed.

(** The fuel given to the loops of [getRelativePath] always suffices. *)
Lemma getRelativePath_fuel (isFile : string -> bool) (path1 path2 : string) :
  getRelativePath isFile path1 path2 <> OutOfFuel.
Proof.
  unfold getRelativePath.
  destruct (negb (isAbsolutePath path1) || negb (isAbsolutePath path2)); [discriminate|].
  apply bind_fuel; [apply of_option_fuel | intros b].
  rewrite !erase_empty_filter. cbn [bind].
  apply bind_fuel.
  { destruct (isFile path1); [apply pop_back_fuel | discriminate]. }
  intros e1. apply bind_fuel.
  { destruct (negb (Ascii.eqb b "/")); [|discriminate].
    apply bind_fuel; [apply of_option_fuel | intros file_name].
    apply bind_fuel; [apply pop_back_fuel | discriminate]. }
  intros [file_name e2]. cbn [fst snd].
  apply bind_fuel; [|discriminate].
  rewrite Z.geb_leb.
  destruct (Z.leb_spec (sizeZ e2) (sizeZ e1)) as [Hle|Hgt]; unfold sizeZ in *.
  - pose proof (climb_loop_spec e1 e2 [] [] EmptyString (length e1) eq_refl) as H.
    cbn [app] in H. change (sizeZ []) with 0 in H. rewrite H by lia.
    destruct (shared e1 e2 =? length e1)%nat; [discriminate|].
    destruct (length e1 =? length e2)%nat; discriminate.
  - pose proof (suffix_loop_spec e2 e1 [] [] EmptyString (length e2) eq_refl (le_n _)) as H.
    cbn [app] in H. change (sizeZ []) with 0 in H. rewrite H. discriminate.
Qed.

(** C1.  The claim has one dot-dot per remaining segment of [from], so that
    the relative path from [/a/b/c/] to [/a/x/] is [../../x/].  The code
    emits a single dot-dot at the first divergence and then reads
    [dirs_path2[i]] for every remaining index of [dirs_path1]: with
    [dirs_path1] the longer one the index leaves [dirs_path2]. *)
Theorem getRelativePath_reads_past_dirs_path2 :
  getRelativePath no_regular_file "/a/b/c/" "/a/x/" = Undefined.
Proof. reflexivity. Qed.

(** With equally many segments the read stays inside, and one dot-dot is
    all that is emitted, however many segments of [from] remain. *)
Example getRelativePath_single_climb :
  getRelativePath no_regular_file "/a/b/c/" "/a/x/y/" = Ret "../x/y/"%string /\
  getRelativePath no_regular_file "/a/b/" "/a/x/" = Ret "../x/"%string.
Proof. split; reflexivity. Qed.

(** The second branch gives the claim's example, but it skips every index at
    which the two paths agree, also behind the first divergence. *)
Example getRelativePath_second_branch :
  getRelativePath no_regular_file "/a/" "/a/b/c/" = Ret "b/c/"%string /\
  getRelativePath no_regular_file "/a/b/" "/x/b/c/" = Ret "x/c/"%string.
Proof. split; reflexivity. Qed.

Example getRelativePath_to_parent :
  getRelativePath no_regular_file "/a/b/" "/a/" = Undefined.
Proof. reflexivity. Qed.

(** ** [isRemoteAddress] *)

Section ReadsPastTheEnd.

Variable junk : nat -> ascii.

Lemma str_read_app (pre rest : string) (k : nat) :
  str_read junk (pre +:+ rest) (String.length pre + k) =
  match String.get k rest with
  | Some c => c
  | None =>
      if (k =? String.length rest)%nat then zero
      else junk (String.length pre + k)%nat
  end.
Proof.
  unfold str_read. rewrite str_get_app_r, str_length_app.
  destruct (String.get k rest); [reflexivity|].
  destruct (Nat.eqb_spec k (String.length rest)) as [->|Hne].
  - rewrite Nat.eqb_refl. reflexivity.
  - destruct (Nat.eqb_spec (String.length pre + k)
                (String.length pre + String.length rest)) as [E|_]; [lia|].
    reflexivity.
Qed.

(** Three characters read at [itr] are a colon and two slashes exactly
    when the string has them there: the terminator is none of them, so
    what lies behind it is never looked at in a successful comparison. *)
Lemma str_range_colon_slashes (pre rest : string) :
  String.eqb (str_range junk (pre +:+ rest) (String.length pre) 3) "://"
  = starts_with "://" rest.
Proof.
  cbn [str_range].
  replace (String.length pre) with (String.length pre + 0)%nat at 1 by lia.
  replace (S (String.length pre)) with (String.length pre + 1)%nat by lia.
  replace (S (String.length pre + 1)) with (String.length pre + 2)%nat by lia.
  rewrite !str_read_app.
  destruct rest as [|a [|b [|c rest]]];
    cbn [String.get String.length Nat.eqb String.eqb starts_with].
  - reflexivity.
  - destruct (Ascii.eqb a ":"); reflexivity.
  - destruct (Ascii.eqb a ":"); [|reflexivity].
    destruct (Ascii.eqb b "/"); reflexivity.
  - destruct (Ascii.eqb a ":"), (Ascii.eqb b "/"), (Ascii.eqb c "/"); reflexivity.
Qed.

Lemma str_range_slashes (addr : string) :
  String.eqb (str_range junk addr 0 2) "//" = starts_with "//" addr.
Proof.
  cbn [str_range].
  pose proof (str_read_app EmptyString addr 0) as H0.
  pose proof (str_read_app EmptyString addr 1) as H1.
  rewrite str_app_nil_l in H0, H1. cbn [String.length Nat.add] in H0, H1.
  rewrite H0, H1.
  destruct addr as [|a [|b addr]];
    cbn [String.get String.length Nat.eqb String.eqb starts_with].
  - reflexivity.
  - destruct (Ascii.eqb a "/"); reflexivity.
  - destruct (Ascii.eqb a "/"), (Ascii.eqb b "/"); reflexivity.
Qed.

Lemma scan_protocol_spec (rest : string) :
  forall (pre protocol : string),
    scan_protocol junk (pre +:+ rest) rest (String.length pre) protocol =
    (let (run, rest') := leading_alnum rest in
     negb (String.eqb (protocol +:+ run) "file") && starts_with "://" rest').
Proof.
  induction rest as [|c rest IH]; intros pre protocol.
  - cbn [scan_protocol leading_alnum]. rewrite andb_false_r. reflexivity.
  - cbn [scan_protocol leading_alnum]. destruct (isalnum c) eqn:Hc.
    + specialize (IH (pre +:+ String c EmptyString) (protocol +:+ String c EmptyString)).
      rewrite str_app_assoc, str_app_cons, str_app_nil_l in IH.
      rewrite str_length_app in IH. cbn [String.length] in IH.
      replace (String.length pre + 1)%nat with (S (String.length pre)) in IH by lia.
      rewrite IH. destruct (leading_alnum rest) as [run rest'].
      rewrite str_app_assoc, str_app_cons, str_app_nil_l. reflexivity.
    + rewrite str_range_colon_slashes, str_app_nil_r.
      destruct (negb (String.eqb protocol "file") && starts_with "://" (String c rest));
        reflexivity.
Qed.

Lemma isRemoteAddress_eq (addr : string) :
  isRemoteAddress junk addr = starts_with "//" addr || remote_scheme addr.
Proof.
  unfold isRemoteAddress, remote_scheme. rewrite str_range_slashes.
  destruct (starts_with "//" addr); [reflexivity|]. cbn [orb].
  pose proof (scan_protocol_spec addr EmptyString EmptyString) as H.
  rewrite !str_app_nil_l in H. cbn [String.length] in H. rewrite H.
  destruct (leading_alnum addr) as [run rest']. rewrite str_app_nil_l. reflexivity.
Qed.

(** C7.  [isRemoteAddress] is true exactly when the input begins with two
    slashes, or its leading alphanumeric run is not [file] and is followed
    at once by a colon and two slashes; the three values of the spec
    follow.  This holds whatever the comparisons read behind the end of a
    short input. *)
Theorem isRemoteAddress_exactly :
  (forall addr : string,
      isRemoteAddress junk addr = true <->
      starts_with "//" addr = true \/ remote_scheme addr = true) /\
  isRemoteAddress junk "http://x" = true /\
  isRemoteAddress junk "file://x" = false /\
  isRemoteAddress junk "/local/path" = false.
Proof.
  split.
  - intros addr. rewrite isRemoteAddress_eq. apply orb_true_iff.
  - rewrite !isRemoteAddress_eq. repeat split; reflexivity.
Qed.

(** A character that is not alphanumeric and does not start the colon and
    two slashes ends the scan with the answer false. *)
Lemma isRemoteAddress_stops (run rest : string) (c : ascii) :
  leading_alnum (run +:+ String c rest) = (run, String c rest) ->
  starts_with "//" (run +:+ String c rest) = false ->
  starts_with "://" (String c rest) = false ->
  isRemoteAddress junk (run +:+ String c rest) = false.
Proof.
  intros Hrun Hslashes Hcolon. rewrite isRemoteAddress_eq, Hslashes.
  unfold remote_scheme. rewrite Hrun, Hcolon, andb_false_r. reflexivity.
Qed.

(** The scheme may be empty. *)
Example isRemoteAddress_empty_scheme : isRemoteAddress junk "://x" = true.
Proof. rewrite isRemoteAddress_eq. reflexivity. Qed.

End ReadsPastTheEnd.

(** ** [getParentPath] *)

(** C9.  For a non-empty path that ends in the separator, [find] over the
    reversed original string stops at once, its [base()] is [path.end()],
    and the whole input comes back. *)
Theorem getParentPath_trailing_separator (path : string) :
  path <> EmptyString ->
  str_last path = Some DIR_SEP_0 ->
  getParentPath path = Ret path.
Proof.
  intros _ Hlast. unfold getParentPath, str_back. rewrite Hlast. cbn [of_option bind].
  destruct (str_last_rev path DIR_SEP_0 Hlast) as [l Hl].
  assert (Hlen : length (DIR_SEP_0 :: l) = String.length path).
  { rewrite <- Hl, length_rev. apply length_list_ascii_of_string. }
  rewrite Hl. cbn [find_reverse_base]. rewrite Ascii.eqb_refl, Hlen.
  rewrite str_substring_all. reflexivity.
Qed.

Lemma getParentPath_trailing_separator_witness :
  "/a/b/"%string <> EmptyString /\ str_last "/a/b/" = Some DIR_SEP_0 /\
  getParentPath "/a/b/" = Ret "/a/b/"%string.
Proof.
  split; [discriminate|]. split; [reflexivity|].
  apply (getParentPath_trailing_separator "/a/b/"); [discriminate | reflexivity].
Defined.

(** Without the trailing separator the parent is what precedes the last
    separator, that separator included. *)
Example getParentPath_file : getParentPath "/a/b" = Ret "/a/"%string.
Proof. reflexivity. Qed.

(** ** [readFile] and [writeFile] *)

(** C10.  [last_modified_time] takes no part in [writeFile]: the result and
    the file system left behind are the same for any two values of it. *)
Theorem writeFile_last_modified_time_unused (file_of : string -> string)
    (create : string -> option (bool * bool)) (fs : gmap string file)
    (path content : string) (mode : openmode) (t1 t2 : Z) :
  writeFile file_of create fs path content mode t1
  = writeFile file_of create fs path content mode t2.
Proof. reflexivity. Qed.

Lemma getline_shorter (stream : string) :
  (String.length (snd (getline stream)) <= String.length stream)%nat.
Proof.
  induction stream as [|c stream IH]; cbn [getline]; [cbn; lia|].
  destruct (Ascii.eqb c newline); [cbn; lia|].
  destruct (getline stream) as [line rest]. cbn in *. lia.
Qed.

Lemma terminated_cons (c d : ascii) (s : string) :
  terminated (String c (String d s)) = String c (terminated (String d s)).
Proof.
  unfold terminated. rewrite str_last_cons.
  destruct (str_last (String d s)) as [e|] eqn:He.
  - destruct (Ascii.eqb e newline); reflexivity.
  - destruct (str_last_nonempty d s) as [b Hb]. congruence.
Qed.

Lemma getline_terminated (c : ascii) (stream : string) :
  fst (getline (String c stream)) +:+
    String newline (terminated (snd (getline (String c stream))))
  = terminated (String c stream).
Proof.
  revert c. induction stream as [|d stream IH]; intros c.
  - cbn [getline]. unfold terminated. cbn [str_last].
    destruct (Ascii.eqb c newline) eqn:E.
    + apply Ascii.eqb_eq in E. subst c. reflexivity.
    + reflexivity.
  - rewrite terminated_cons. specialize (IH d).
    cbn [getline] in *. destruct (Ascii.eqb c newline) eqn:E.
    + apply Ascii.eqb_eq in E. subst c. reflexivity.
    + destruct (Ascii.eqb d newline).
      * cbn [fst snd] in *. rewrite str_app_cons. f_equal. exact IH.
      * destruct (getline stream) as [line rest]. cbn [fst snd] in *.
        rewrite str_app_cons. f_equal. exact IH.
Qed.

Lemma read_lines_terminated (fuel : nat) :
  forall stream content,
    (String.length stream <= fuel)%nat ->
    read_lines fuel stream content = Ret (content +:+ terminated stream).
Proof.
  induction fuel as [|fuel IH]; intros stream content Hfuel.
  - destruct stream; [|cbn in Hfuel; lia]. cbn. rewrite str_app_nil_r. reflexivity.
  - destruct stream as [|c stream].
    + cbn. rewrite str_app_nil_r. reflexivity.
    + cbn [read_lines].
      pose proof (getline_terminated c stream) as Hterm.
      pose proof (getline_shorter (String c stream)) as Hlen.
      assert (Hlt : (String.length (snd (getline (String c stream))) <= fuel)%nat).
      { cbn [getline] in *. destruct (Ascii.eqb c newline).
        - cbn in *. lia.
        - pose proof (getline_shorter stream).
          destruct (getline stream) as [line rest]. cbn in *. lia. }
      destruct (getline (String c stream)) as [line rest]. cbn [fst snd] in *.
      rewrite IH by exact Hlt.
      rewrite <- Hterm, !str_app_assoc. reflexivity.
Qed.


(** [readFile] always returns. *)
Lemma readFile_returns
    (file_of : string -> string) (fs : gmap string file) (path : string) :
  exists r, readFile file_of fs path = Ret r.
Proof.
  unfold readFile. destruct (fs !! file_of path) as [f|]; [|eauto].
  destruct (readable f); [|eauto].
  rewrite read_lines_terminated by lia. cbn [bind]. eauto.
Qed.






(** ** Paths that are not absolute, with [WIN] defined *)

(** [isAbsolutePath] throws on the paths of one letter, and on no other:
    the empty path and a first character that is no letter are turned away
    before [path.at(1)], which a second character satisfies. *)
Lemma isAbsolutePath_WIN_throws_iff (path : string) :
  WIN.isAbsolutePath path = Throws_out_of_range <->
  exists c, path = String c EmptyString /\ WIN.isalpha c = true.
Proof.
  unfold WIN.isAbsolutePath, WIN.str_at. destruct path as [|c [|d rest]].
  - split; [discriminate | intros (c & [=] & _)].
  - cbn [String.get Nat.eqb]. destruct (WIN.isalpha c) eqn:Hc.
    + split; [eauto | reflexivity].
    + split; [discriminate | intros (c' & [= <-] & H); congruence].
  - cbn [String.get Nat.eqb]. destruct (WIN.isalpha c);
      (split; [discriminate | intros (c' & [=] & _)]).
Qed.

(** Where [isAbsolutePath] returns [false], [getCleanPath] returns the path
    and [getRelativePath] the empty string. *)
Lemma getCleanPath_WIN_not_absolute (order : arg_order) (path : string) :
  WIN.isAbsolutePath path = Returns false ->
  WIN.getCleanPath order path = Returns (Ret path).
Proof. intros H. unfold WIN.getCleanPath. rewrite H. reflexivity. Qed.

Lemma getRelativePath_WIN_not_absolute
    (isFile : string -> bool) (path1 path2 : string) :
  WIN.isAbsolutePath path1 = Returns false \/
  (WIN.isAbsolutePath path1 = Returns true /\
   WIN.isAbsolutePath path2 = Returns false) ->
  WIN.getRelativePath isFile path1 path2 = Returns (Ret EmptyString).
Proof.
  intros [H | [H1 H2]]; unfold WIN.getRelativePath.
  - rewrite H. reflexivity.
  - rewrite H1, H2. reflexivity.
Qed.

(** A path of one letter makes [getCleanPath] and [getRelativePath] throw. *)
Lemma getCleanPath_WIN_letter_throws (order : arg_order) (c : ascii) :
  WIN.isalpha c = true ->
  WIN.getCleanPath order (String c EmptyString) = Throws_out_of_range.
Proof.
  intros Hc. unfold WIN.getCleanPath.
  rewrite (proj2 (isAbsolutePath_WIN_throws_iff (String c EmptyString)));
    [reflexivity | eauto].
Qed.

(** C5.  The relative path [a] is not returned unchanged when [WIN] is
    defined: [isAbsolutePath] reads [path.at(1)] of a path of one character,
    and [getCleanPath] leaves with the [std::out_of_range] thrown there. *)
Theorem getCleanPath_WIN_one_letter_throws (order : arg_order) :
  WIN.getCleanPath order "a" = Throws_out_of_range.
Proof. destruct order; reflexivity. Qed.

(** C6.  With [WIN] defined [getRelativePath] throws, instead of returning
    the empty string, when the first path is the relative path [a], and
    when the first path is absolute and the second one is [a]. *)
Theorem getRelativePath_WIN_one_letter_throws
    (isFile : string -> bool) (path : string) :
  WIN.getRelativePath isFile "a" path = Throws_out_of_range /\
  WIN.getRelativePath isFile "C:" "a" = Throws_out_of_range.
Proof. split; reflexivity. Qed.

(** * Further properties *)

(** ** Occurrences of a character *)

Lemma no_sep_no_char (s : string) : no_sep s = no_char DIR_SEP_0 s.
Proof. induction s as [|a s IH]; [reflexivity|]. cbn. rewrite IH. reflexivity. Qed.

(** A string either lacks [c] or splits at its last occurrence. *)
Lemma last_occurrence (c : ascii) (s : string) :
  no_char c s = true \/
  exists pre post, s = pre +:+ String c post /\ no_char c post = true.
Proof.
  induction s as [|a s [IH | (pre & post & -> & Hpost)]].
  - left. reflexivity.
  - cbn [no_char]. destruct (Ascii.eqb_spec a c) as [->|Hne].
    + right. exists EmptyString, s. split; [reflexivity | exact IH].
    + left. rewrite IH. reflexivity.
  - right. exists (String a pre), post. split; [reflexivity | exact Hpost].
Qed.

Lemma no_char_app (c : ascii) (s t : string) :
  no_char c (s +:+ t) = no_char c s && no_char c t.
Proof.
  induction s as [|a s IH]; [reflexivity|].
  rewrite str_app_cons. cbn [no_char]. rewrite IH, andb_assoc. reflexivity.
Qed.

Lemma list_ascii_of_string_app (s t : string) :
  list_ascii_of_string (s +:+ t) = list_ascii_of_string s ++ list_ascii_of_string t.
Proof.
  induction s as [|a s IH]; [reflexivity|].
  rewrite str_app_cons. cbn [list_ascii_of_string app]. rewrite IH. reflexivity.
Qed.

Lemma no_char_Forall (c : ascii) (s : string) :
  no_char c s = true ->
  List.Forall (fun x => Ascii.eqb x c = false) (list_ascii_of_string s).
Proof.
  induction s as [|a s IH]; cbn [no_char list_ascii_of_string]; intros H.
  - constructor.
  - apply andb_true_iff in H as [Ha Hs]. apply negb_true_iff in Ha.
    constructor; [exact Ha | exact (IH Hs)].
Qed.

Lemma find_reverse_base_skip (c : ascii) (u w : list ascii) :
  List.Forall (fun x => Ascii.eqb x c = false) u ->
  find_reverse_base c (u ++ w) = find_reverse_base c w.
Proof.
  induction 1 as [|x u Hx Hu IH]; [reflexivity|].
  cbn [app find_reverse_base]. rewrite Hx. exact IH.
Qed.

Lemma find_reverse_base_none (s : string) :
  no_char DIR_SEP_0 s = true ->
  find_reverse_base DIR_SEP_0 (rev (list_ascii_of_string s)) = O.
Proof.
  intros H. apply no_char_Forall in H. apply List.Forall_rev in H.
  rewrite <- (app_nil_r (rev _)). rewrite (find_reverse_base_skip _ _ [] H).
  reflexivity.
Qed.

Lemma find_reverse_base_last (pre post : string) :
  no_char DIR_SEP_0 post = true ->
  find_reverse_base DIR_SEP_0
    (rev (list_ascii_of_string (pre +:+ String DIR_SEP_0 post)))
  = S (String.length pre).
Proof.
  intros H. apply no_char_Forall in H. apply List.Forall_rev in H.
  rewrite list_ascii_of_string_app. cbn [list_ascii_of_string].
  rewrite rev_app_distr. cbn [rev]. rewrite <- app_assoc. cbn [app].
  rewrite (find_reverse_base_skip _ _ _ H). cbn [find_reverse_base].
  rewrite Ascii.eqb_refl. cbn [length].
  rewrite length_rev, length_list_ascii_of_string. reflexivity.
Qed.

Lemma str_substring_prefix (a b : string) :
  String.substring 0 (String.length a) (a +:+ b) = a.
Proof.
  induction a as [|x a IH].
  - destruct b; reflexivity.
  - rewrite str_app_cons. cbn [String.length String.substring]. rewrite IH. reflexivity.
Qed.

Lemma str_substring_suffix (a b : string) :
  String.substring (String.length a) (String.length b) (a +:+ b) = b.
Proof.
  induction a as [|x a IH].
  - rewrite str_app_nil_l. apply str_substring_all.
  - rewrite str_app_cons. cbn [String.length String.substring]. exact IH.
Qed.

Lemma str_pop_back_snoc (s : string) (c : ascii) :
  str_pop_back (s +:+ String c EmptyString) = s.
Proof.
  unfold str_pop_back. rewrite str_length_app. cbn [String.length].
  replace (String.length s + 1 - 1)%nat with (String.length s) by lia.
  apply str_substring_prefix.
Qed.

(** A non-empty string is its [pop_back] followed by its last character. *)
Lemma str_snoc (s : string) (c : ascii) :
  str_last s = Some c -> exists s', s = s' +:+ String c EmptyString.
Proof.
  induction s as [|a s IH]; [discriminate|].
  destruct s as [|b s].
  - cbn. intros [= ->]. exists EmptyString. reflexivity.
  - rewrite str_last_cons. intros H. destruct (IH H) as [s' Hs'].
    exists (String a s'). rewrite str_app_cons, <- Hs'. reflexivity.
Qed.

(** ** [getParentPath], [getBaseName] and [getFileExtension] *)

Lemma str_back_app (pre : string) (c : ascii) (post : string) :
  exists b, str_back (pre +:+ String c post) = Ret b /\
            str_last (String c post) = Some b.
Proof.
  destruct (str_last_nonempty c post) as [b Hb]. exists b.
  unfold str_back. rewrite str_last_app, Hb. split; reflexivity.
Qed.

Lemma str_snoc_assoc (pre : string) (c : ascii) (post : string) :
  pre +:+ String c post = (pre +:+ String c EmptyString) +:+ post.
Proof. rewrite str_app_assoc, str_app_cons, str_app_nil_l. reflexivity. Qed.

Lemma str_length_snoc (pre : string) (c : ascii) :
  String.length (pre +:+ String c EmptyString) = S (String.length pre).
Proof. rewrite str_length_app. cbn [String.length]. lia. Qed.

Lemma getParentPath_at_last_sep (pre post : string) :
  no_sep post = true ->
  getParentPath (pre +:+ String DIR_SEP_0 post)
  = Ret (pre +:+ String DIR_SEP_0 EmptyString).
Proof.
  intros Hpost. rewrite no_sep_no_char in Hpost. unfold getParentPath.
  destruct (str_back_app pre DIR_SEP_0 post) as [b [-> _]]. cbn [bind].
  rewrite (find_reverse_base_last pre post Hpost).
  rewrite (str_snoc_assoc pre DIR_SEP_0 post), <- (str_length_snoc pre DIR_SEP_0).
  rewrite str_substring_prefix. reflexivity.
Qed.

Lemma getParentPath_no_sep (c : ascii) (s : string) :
  no_sep (String c s) = true -> getParentPath (String c s) = Ret EmptyString.
Proof.
  intros H. rewrite no_sep_no_char in H. unfold getParentPath, str_back.
  destruct (str_last_nonempty c s) as [b ->]. cbn [of_option bind].
  rewrite (find_reverse_base_none _ H). reflexivity.
Qed.

Lemma base_name_of_at_last_sep (pre post : string) :
  no_sep post = true ->
  base_name_of (pre +:+ String DIR_SEP_0 post) = post.
Proof.
  intros Hpost. rewrite no_sep_no_char in Hpost. unfold base_name_of.
  rewrite (find_reverse_base_last pre post Hpost).
  rewrite (str_snoc_assoc pre DIR_SEP_0 post), str_length_app, str_length_snoc.
  replace (S (String.length pre) + String.length post - S (String.length pre))%nat
    with (String.length post) by lia.
  rewrite <- (str_length_snoc pre DIR_SEP_0). apply str_substring_suffix.
Qed.

Lemma base_name_of_no_sep (s : string) :
  no_sep s = true -> base_name_of s = s.
Proof.
  intros H. rewrite no_sep_no_char in H. unfold base_name_of.
  rewrite (find_reverse_base_none _ H), Nat.sub_0_r. apply str_substring_all.
Qed.

Lemma base_name_of_no_sep_result (s : string) : no_sep (base_name_of s) = true.
Proof.
  destruct (last_occurrence DIR_SEP_0 s) as [H | (pre & post & -> & Hpost)];
    rewrite <- no_sep_no_char in *.
  - rewrite (base_name_of_no_sep s H). exact H.
  - rewrite (base_name_of_at_last_sep pre post Hpost). exact Hpost.
Qed.

Lemma getBaseName_eq (path : string) (b : ascii) :
  str_last path = Some b ->
  getBaseName path =
  Ret (base_name_of (if Ascii.eqb b DIR_SEP_0 then str_pop_back path else path)).
Proof. intros H. unfold getBaseName, str_back. rewrite H. reflexivity. Qed.

(** For a path that does not end in the separator, the parent path and the
    base name are the two parts of the path around its last separator: put
    together they give the path back, and the base name holds no separator. *)
Theorem getParentPath_getBaseName (path : string) (c : ascii) :
  str_last path = Some c ->
  Ascii.eqb c DIR_SEP_0 = false ->
  exists parent base,
    getParentPath path = Ret parent /\
    getBaseName path = Ret base /\
    parent +:+ base = path /\
    no_sep base = true /\
    (parent = EmptyString \/ str_last parent = Some DIR_SEP_0).
Proof.
  intros Hlast Hc. rewrite (getBaseName_eq path c Hlast), Hc.
  destruct (last_occurrence DIR_SEP_0 path) as [H | (pre & post & -> & Hpost)];
    rewrite <- no_sep_no_char in *.
  - destruct path as [|a path]; [discriminate|].
    exists EmptyString, (String a path).
    rewrite (getParentPath_no_sep a path H), (base_name_of_no_sep _ H).
    repeat split; [exact H | left; reflexivity].
  - exists (pre +:+ String DIR_SEP_0 EmptyString), post.
    rewrite (getParentPath_at_last_sep pre post Hpost),
            (base_name_of_at_last_sep pre post Hpost).
    repeat split; try assumption.
    + symmetry. apply str_snoc_assoc.
    + right. apply str_last_app.
Qed.

Lemma getParentPath_getBaseName_witness :
  str_last "/a/b.txt" = Some "t"%char /\
  Ascii.eqb "t" DIR_SEP_0 = false /\
  exists parent base,
    getParentPath "/a/b.txt" = Ret parent /\
    getBaseName "/a/b.txt" = Ret base /\
    parent +:+ base = "/a/b.txt"%string /\
    no_sep base = true /\
    (parent = EmptyString \/ str_last parent = Some DIR_SEP_0).
Proof.
  split; [reflexivity|]. split; [reflexivity|].
  apply (getParentPath_getBaseName "/a/b.txt" "t"); reflexivity.
Defined.

(** The base name never holds a separator, whatever the path. *)
Theorem getBaseName_no_sep (path base : string) :
  getBaseName path = Ret base -> no_sep base = true.
Proof.
  unfold getBaseName, str_back. destruct (str_last path) as [b|]; [|discriminate].
  cbn [of_option bind]. intros [= <-]. apply base_name_of_no_sep_result.
Qed.

Lemma getBaseName_no_sep_witness :
  getBaseName "/a/b/" = Ret "b"%string /\ no_sep "b" = true.
Proof.
  split; [reflexivity|]. apply (getBaseName_no_sep "/a/b/" "b"). reflexivity.
Defined.

(** One trailing separator does not change the base name. *)
Theorem getBaseName_trailing_separator (path : string) (c : ascii) :
  str_last path = Some c ->
  Ascii.eqb c DIR_SEP_0 = false ->
  getBaseName (path +:+ DIR_SEP) = getBaseName path.
Proof.
  intros Hlast Hc. rewrite (getBaseName_eq path c Hlast), Hc.
  assert (H : str_last (path +:+ DIR_SEP) = Some DIR_SEP_0)
    by (unfold DIR_SEP; apply str_last_app).
  rewrite (getBaseName_eq _ _ H), Ascii.eqb_refl.
  unfold DIR_SEP. rewrite str_pop_back_snoc. reflexivity.
Qed.

Lemma getBaseName_trailing_separator_witness :
  str_last "/a/b" = Some "b"%char /\ Ascii.eqb "b" DIR_SEP_0 = false /\
  getBaseName ("/a/b" +:+ DIR_SEP) = getBaseName "/a/b".
Proof.
  split; [reflexivity|]. split; [reflexivity|].
  apply (getBaseName_trailing_separator "/a/b" "b"); reflexivity.
Defined.

(** The parent path of any non-empty path is a prefix of it that is empty or
    ends in the separator, and what follows it holds no separator. *)
Theorem getParentPath_prefix (path : string) :
  path <> EmptyString ->
  exists parent rest,
    getParentPath path = Ret parent /\
    path = parent +:+ rest /\
    no_sep rest = true /\
    (parent = EmptyString \/ str_last parent = Some DIR_SEP_0).
Proof.
  intros Hne.
  destruct (last_occurrence DIR_SEP_0 path) as [H | (pre & post & -> & Hpost)];
    rewrite <- no_sep_no_char in *.
  - destruct path as [|a path]; [congruence|].
    exists EmptyString, (String a path).
    rewrite (getParentPath_no_sep a path H).
    repeat split; [exact H | left; reflexivity].
  - exists (pre +:+ String DIR_SEP_0 EmptyString), post.
    rewrite (getParentPath_at_last_sep pre post Hpost).
    repeat split; try assumption.
    + apply str_snoc_assoc.
    + right. apply str_last_app.
Qed.

Lemma getParentPath_prefix_witness :
  "/a/b"%string <> EmptyString /\
  exists parent rest,
    getParentPath "/a/b" = Ret parent /\
    "/a/b"%string = parent +:+ rest /\
    no_sep rest = true /\
    (parent = EmptyString \/ str_last parent = Some DIR_SEP_0).
Proof.
  split; [discriminate|]. apply (getParentPath_prefix "/a/b"). discriminate.
Defined.

Lemma str_deref_cons (a : ascii) (s : string) (i : nat) :
  str_deref (String a s) (S i) = str_deref s i.
Proof. reflexivity. Qed.

Lemma str_deref_app_r (a b : string) (k : nat) :
  str_deref (a +:+ b) (String.length a + k) = str_deref b k.
Proof.
  induction a as [|x a IH]; [reflexivity|].
  rewrite str_app_cons. cbn [String.length Nat.add]. rewrite str_deref_cons. exact IH.
Qed.

(** A read up to the terminator of a string without [c] finds a character
    other than [c], unless [c] is the terminator. *)
Lemma str_deref_no_char (c : ascii) (s : string) :
  forall i,
    no_char c s = true ->
    Ascii.eqb zero c = false ->
    (i <= String.length s)%nat ->
    exists x, str_deref s i = Ret x /\ Ascii.eqb x c = false.
Proof.
  induction s as [|a s IH]; intros i Hs Hz Hi.
  - cbn [String.length] in Hi. replace i with O by lia. exists zero. split; [reflexivity | exact Hz].
  - cbn [no_char] in Hs. apply andb_true_iff in Hs as [Ha Hs]. apply negb_true_iff in Ha.
    destruct i as [|i].
    + exists a. split; [reflexivity | exact Ha].
    + rewrite str_deref_cons. apply IH; [exact Hs | exact Hz | cbn [String.length] in Hi; lia].
Qed.

Lemma extension_loop_no_dot (s : string) :
  no_sep s = true ->
  no_char "." s = true ->
  forall itr, (itr <= String.length s)%nat -> extension_loop s itr = Ret EmptyString.
Proof.
  intros Hsep Hdot. rewrite no_sep_no_char in Hsep.
  induction itr as [|itr IH]; intros Hle; [reflexivity|].
  cbn [extension_loop].
  destruct (str_deref_no_char DIR_SEP_0 s (S itr) Hsep eq_refl Hle) as [c [-> Hc]].
  cbn [bind]. rewrite Hc.
  destruct (str_deref_no_char "." s itr Hdot eq_refl ltac:(lia)) as [d [-> Hd]].
  cbn [bind]. rewrite Hd. apply IH. lia.
Qed.

Lemma extension_loop_last_dot (stem ext : string) :
  no_sep (stem +:+ String "." ext) = true ->
  no_char "." ext = true ->
  forall k, (k <= String.length ext)%nat ->
    extension_loop (stem +:+ String "." ext) (S (String.length stem) + k)
    = Ret (String "." ext).
Proof.
  intros Hsep Hdot. rewrite no_sep_no_char in Hsep.
  assert (Hlen : String.length (stem +:+ String "." ext)
                 = (S (String.length stem) + String.length ext)%nat).
  { rewrite str_length_app. cbn [String.length]. lia. }
  assert (Hext : forall j, str_deref (stem +:+ String "." ext) (S (String.length stem) + j)
                           = str_deref ext j).
  { intros j. replace (S (String.length stem) + j)%nat
      with (String.length stem + S j)%nat by lia.
    rewrite str_deref_app_r. apply str_deref_cons. }
  induction k as [|k IH]; intros Hk.
  - rewrite Nat.add_0_r. cbn [extension_loop].
    destruct (str_deref_no_char DIR_SEP_0 _ (S (String.length stem)) Hsep eq_refl
                ltac:(lia)) as [c [-> Hc]].
    cbn [bind]. rewrite Hc.
    replace (String.length stem) with (String.length stem + 0)%nat at 1 by lia.
    rewrite str_deref_app_r. cbn [str_deref String.get bind]. rewrite Ascii.eqb_refl.
    rewrite Hlen.
    replace (S (String.length stem) + String.length ext - String.length stem)%nat
      with (String.length (String "." ext)) by (cbn [String.length]; lia).
    rewrite str_substring_suffix. reflexivity.
  - replace (S (String.length stem) + S k)%nat
      with (S (S (String.length stem) + k)) by lia.
    cbn [extension_loop].
    destruct (str_deref_no_char DIR_SEP_0 _ (S (S (String.length stem) + k)) Hsep eq_refl
                ltac:(lia)) as [c [-> Hc]].
    cbn [bind]. rewrite Hc, Hext.
    destruct (str_deref_no_char "." ext k Hdot eq_refl ltac:(lia)) as [d [-> Hd]].
    cbn [bind]. rewrite Hd. apply IH. lia.
Qed.

(** The extension of a non-empty path is read off its base name: nothing
    when the base name holds no dot, and otherwise the base name from its
    last dot on, the dot included. *)
Theorem getFileExtension_last_dot (path : string) (b : ascii) :
  str_last path = Some b ->
  exists base,
    getBaseName path = Ret base /\
    ((no_char "." base = true /\ getFileExtension path = Ret EmptyString) \/
     (exists stem ext,
         base = stem +:+ String "." ext /\
         no_char "." ext = true /\
         getFileExtension path = Ret (String "." ext))).
Proof.
  intros Hlast. unfold getFileExtension. rewrite (getBaseName_eq path b Hlast).
  set (base := base_name_of _). exists base. split; [reflexivity|]. cbn [bind].
  pose proof (base_name_of_no_sep_result
                (if Ascii.eqb b DIR_SEP_0 then str_pop_back path else path)) as Hsep.
  fold base in Hsep.
  destruct (last_occurrence "." base) as [H | (stem & ext & Hbase & Hext)].
  - left. split; [exact H|]. apply extension_loop_no_dot; [exact Hsep | exact H | lia].
  - right. exists stem, ext. split; [exact Hbase|]. split; [exact Hext|].
    rewrite Hbase in *.
    replace (String.length (stem +:+ String "." ext))
      with (S (String.length stem) + String.length ext)%nat
      by (rewrite str_length_app; cbn [String.length]; lia).
    apply extension_loop_last_dot; [exact Hsep | exact Hext | lia].
Qed.

Lemma getFileExtension_last_dot_witness :
  str_last "/a/b.tar.gz" = Some "z"%char /\
  exists base,
    getBaseName "/a/b.tar.gz" = Ret base /\
    ((no_char "." base = true /\ getFileExtension "/a/b.tar.gz" = Ret EmptyString) \/
     (exists stem ext,
         base = stem +:+ String "." ext /\
         no_char "." ext = true /\
         getFileExtension "/a/b.tar.gz" = Ret (String "." ext))).
Proof.
  split; [reflexivity|]. apply (getFileExtension_last_dot "/a/b.tar.gz" "z"). reflexivity.
Defined.

Example getFileExtension_values :
  getFileExtension "/a/b.tar.gz" = Ret ".gz"%string /\
  getFileExtension "/a/noext" = Ret EmptyString /\
  getFileExtension "/a.b/noext" = Ret EmptyString /\
  getFileExtension "/a/.bashrc" = Ret ".bashrc"%string /\
  getFileExtension "/a/b.d/" = Ret ".d"%string /\
  getFileExtension EmptyString = Undefined.
Proof. repeat split; reflexivity. Qed.

(** ** More on [getCleanPath] *)

Lemma ends_with_sep_last (path : string) (b : ascii) :
  str_last path = Some b -> ends_with_sep path = Ascii.eqb b DIR_SEP_0.
Proof. intros H. unfold ends_with_sep. rewrite H. reflexivity. Qed.

Lemma join_clean_cleaned_path (dirs : list string) (flag : bool) :
  join_clean dirs flag = cleaned_path dirs flag.
Proof.
  unfold join_clean, cleaned_path. destruct dirs as [|d dirs]; [reflexivity|].
  rewrite append_dirs_slashed, str_app_nil_l. reflexivity.
Qed.

(** On an absolute path [getCleanPath] runs the stack machine [resolve] over
    the segments of the path and returns the segments that are left, each
    behind a separator, with a separator more when the path ended in one. *)
Theorem getCleanPath_stack (path : string) :
  isAbsolutePath path = true ->
  getCleanPath RightToLeft path =
    (dirs <- resolve [] (segments path) ;;
     Ret (cleaned_path dirs (ends_with_sep path))).
Proof.
  intros Habs. destruct (absolute_back path Habs) as [b Hb].
  rewrite (getCleanPath_resolve path b Habs Hb), (ends_with_sep_last path b Hb).
  unfold segments. rewrite <- resolve_nonempty.
  destruct (resolve [] (split path DIR_SEP_0)) as [dirs| |]; try reflexivity.
  cbn [bind]. rewrite join_clean_cleaned_path. reflexivity.
Qed.

Lemma getCleanPath_stack_witness :
  isAbsolutePath "/a/./b/../c/" = true /\
  getCleanPath RightToLeft "/a/./b/../c/" =
    (dirs <- resolve [] (segments "/a/./b/../c/") ;;
     Ret (cleaned_path dirs (ends_with_sep "/a/./b/../c/"))).
Proof.
  split; [reflexivity|]. apply (getCleanPath_stack "/a/./b/../c/"). reflexivity.
Defined.

Lemma filter_nonempty_kept (dirs : list string) :
  Forall (fun d => kept d = true) dirs -> List.filter nonempty dirs = dirs.
Proof.
  induction 1 as [|d dirs Hd _ IH]; [reflexivity|].
  cbn [List.filter]. destruct (kept_nonempty d Hd) as [c [d' ->]].
  cbn [nonempty str_empty negb]. rewrite IH. reflexivity.
Qed.

Lemma join_clean_slashed (dirs : list string) (flag : bool) :
  dirs <> [] ->
  join_clean dirs flag = if flag then slashed dirs +:+ DIR_SEP else slashed dirs.
Proof.
  intros Hne. unfold join_clean. destruct dirs as [|d dirs]; [congruence|].
  rewrite append_dirs_slashed, str_app_nil_l. reflexivity.
Qed.

(** The segments of a joined path are the segments it was joined from. *)
Lemma segments_join_clean (dirs : list string) (flag : bool) :
  Forall (fun d => kept d = true) dirs ->
  segments (join_clean dirs flag) = dirs.
Proof.
  intros Hk. destruct dirs as [|d dirs].
  - destruct flag; reflexivity.
  - assert (Hne : d :: dirs <> []) by discriminate.
    assert (Hs : forall s, split (slashed (d :: dirs) +:+ s) DIR_SEP_0
                           = fields DIR_SEP_0 (slashed (d :: dirs) +:+ s)).
    { intros s. rewrite slashed_cons_shape, str_app_cons. reflexivity. }
    revert Hk Hne Hs. generalize (d :: dirs). clear d dirs. intros dirs Hk Hne Hs.
    unfold segments. rewrite (join_clean_slashed _ flag Hne).
    destruct flag.
    + rewrite Hs. unfold DIR_SEP. change "/"%char with DIR_SEP_0.
      rewrite (fields_slashed _ EmptyString Hk). cbn [fields].
      cbn [List.filter nonempty str_empty negb]. rewrite List.filter_app.
      cbn [List.filter nonempty str_empty negb]. rewrite app_nil_r.
      apply filter_nonempty_kept. exact Hk.
    + rewrite <- (str_app_nil_r (slashed dirs)), Hs, str_app_nil_r.
      rewrite (fields_slashed_end _ Hne Hk).
      cbn [List.filter nonempty str_empty negb].
      apply filter_nonempty_kept. exact Hk.
Qed.

Lemma ends_with_sep_join_clean (dirs : list string) (flag : bool) :
  dirs <> [] ->
  Forall (fun d => kept d = true) dirs ->
  ends_with_sep (join_clean dirs flag) = flag.
Proof.
  intros Hne Hk. rewrite (join_clean_slashed _ flag Hne). unfold ends_with_sep.
  destruct (slashed_last dirs Hne Hk) as [c [Hc Hsep]]. destruct flag.
  - unfold DIR_SEP. rewrite str_last_app. reflexivity.
  - rewrite Hc. exact Hsep.
Qed.

Lemma kept_plain (d : string) : kept d = true -> plain d.
Proof.
  unfold kept, plain, is_dot, is_dotdot. intros H.
  apply andb_true_iff in H as [H Hsep]. apply andb_true_iff in H as [H Hdd].
  apply negb_true_iff, orb_false_iff in H as [He Hd].
  apply negb_true_iff in Hdd.
  repeat split; try exact Hsep.
  - intros ->. discriminate He.
  - intros ->. discriminate Hd.
  - intros ->. discriminate Hdd.
Qed.

(** What [resolve] leaves is a subsequence of what it was given. *)
Lemma resolve_sublist (segs : list string) :
  forall stack dirs,
    resolve stack segs = Ret dirs -> dirs `sublist_of` reverse stack ++ segs.
Proof.
  induction segs as [|s segs IH]; intros stack dirs; cbn [resolve].
  - intros [= <-]. rewrite app_nil_r. reflexivity.
  - destruct (str_empty s || is_dot s).
    + intros H. etransitivity; [exact (IH _ _ H)|].
      apply sublist_app; [reflexivity | apply sublist_cons; reflexivity].
    + destruct (is_dotdot s).
      * destruct stack as [|t stack]; [discriminate|].
        intros H. etransitivity; [exact (IH _ _ H)|].
        rewrite reverse_cons.
        apply sublist_app; [apply sublist_inserts_r; reflexivity
                           | apply sublist_cons; reflexivity].
      * intros H. specialize (IH _ _ H).
        rewrite reverse_cons, <- app_assoc in IH. exact IH.
Qed.

(** What [getCleanPath] returns for an absolute path is a cleaned path: its
    segments are some of the segments of the path, in their order, none of
    them empty, a dot or a dot-dot; each stands behind one separator, and
    one separator more ends the result exactly when one ended the path. *)
Theorem getCleanPath_normal_form (path cleaned : string) :
  isAbsolutePath path = true ->
  getCleanPath RightToLeft path = Ret cleaned ->
  exists dirs,
    cleaned = cleaned_path dirs (ends_with_sep path) /\
    dirs `sublist_of` segments path /\
    Forall plain dirs.
Proof.
  intros Habs Hclean. destruct (absolute_back path Habs) as [b Hb].
  rewrite (getCleanPath_resolve path b Habs Hb) in Hclean.
  destruct (resolve [] (split path DIR_SEP_0)) as [dirs| |] eqn:Hres; try discriminate.
  cbn [bind] in Hclean. injection Hclean as <-.
  pose proof (resolve_returns_kept _ [] dirs (split_no_sep path)
                (List.Forall_nil _) Hres) as Hk.
  exists dirs. split; [|split].
  - rewrite join_clean_cleaned_path, (ends_with_sep_last path b Hb). reflexivity.
  - rewrite resolve_nonempty in Hres. exact (resolve_sublist _ _ _ Hres).
  - apply List.Forall_forall. intros d Hd. apply kept_plain.
    exact (proj1 (List.Forall_forall _ _) Hk d Hd).
Qed.

Lemma getCleanPath_normal_form_witness :
  isAbsolutePath "/a//./b/../c/" = true /\
  getCleanPath RightToLeft "/a//./b/../c/" = Ret "/a/c/"%string /\
  exists dirs,
    "/a/c/"%string = cleaned_path dirs (ends_with_sep "/a//./b/../c/") /\
    dirs `sublist_of` segments "/a//./b/../c/" /\
    Forall plain dirs.
Proof.
  split; [reflexivity|]. split; [reflexivity|].
  apply (getCleanPath_normal_form "/a//./b/../c/" "/a/c/"); reflexivity.
Defined.

Lemma resolve_without_dotdot (segs : list string) :
  forall stack,
    Forall (fun s => nonempty s = true) segs ->
    Forall (fun s => is_dotdot s = false) segs ->
    resolve stack segs
    = Ret (reverse stack ++ List.filter (fun s => negb (is_dot s)) segs).
Proof.
  induction segs as [|s segs IH]; intros stack Hne Hdd.
  - cbn [resolve List.filter]. rewrite app_nil_r. reflexivity.
  - inversion Hne as [|? ? Hs Hne']; subst. inversion Hdd as [|? ? Hd Hdd']; subst.
    unfold nonempty in Hs. apply negb_true_iff in Hs.
    cbn [resolve List.filter]. rewrite Hs, Hd. cbn [orb].
    destruct (is_dot s); cbn [negb].
    + apply IH; assumption.
    + rewrite (IH _ Hne' Hdd'), reverse_cons, <- app_assoc. reflexivity.
Qed.

Lemma segments_nonempty (path : string) :
  Forall (fun s => nonempty s = true) (segments path).
Proof.
  unfold segments. apply List.Forall_forall. intros s Hs.
  apply List.filter_In in Hs. tauto.
Qed.

(** An absolute path without a dot-dot segment is always cleaned: the result
    has its segments other than the dots, each behind a separator. *)
Theorem getCleanPath_without_dotdot (path : string) :
  isAbsolutePath path = true ->
  Forall (fun s => s <> ".."%string) (segments path) ->
  getCleanPath RightToLeft path =
    Ret (cleaned_path
           (List.filter (fun s => negb (String.eqb s ".")) (segments path))
           (ends_with_sep path)).
Proof.
  intros Habs Hdd. destruct (absolute_back path Habs) as [b Hb].
  rewrite (getCleanPath_resolve path b Habs Hb), (ends_with_sep_last path b Hb).
  rewrite (resolve_nonempty (split path DIR_SEP_0) []). fold (segments path).
  assert (Hdd' : Forall (fun s => is_dotdot s = false) (segments path)).
  { apply List.Forall_forall. intros d Hd.
    pose proof (proj1 (List.Forall_forall _ _) Hdd d Hd) as Hne.
    unfold is_dotdot. apply String.eqb_neq. exact Hne. }
  rewrite (resolve_without_dotdot _ [] (segments_nonempty path) Hdd').
  cbn [bind reverse app]. rewrite join_clean_cleaned_path. reflexivity.
Qed.

Lemma getCleanPath_without_dotdot_witness :
  isAbsolutePath "/a//./b/" = true /\
  Forall (fun s => s <> ".."%string) (segments "/a//./b/") /\
  getCleanPath RightToLeft "/a//./b/" = Ret "/a/b/"%string.
Proof.
  assert (H : Forall (fun s => s <> ".."%string) (segments "/a//./b/"))
    by (repeat constructor; discriminate).
  split; [reflexivity|]. split; [exact H|].
  exact (getCleanPath_without_dotdot "/a//./b/" eq_refl H).
Defined.

(** ** More on [getRelativePath] *)



Lemma getRelativePath_from_deeper_witness :
  isAbsolutePath "/a/b/" = true /\ isAbsolutePath "/a/" = true /\
  str_last "/a/" = Some DIR_SEP_0 /\ no_regular_file "/a/b/" = false /\
  (length (segments "/a/") < length (segments "/a/b/"))%nat /\
  getRelativePath no_regular_file "/a/b/" "/a/" = Undefined.
Proof.
  repeat (split; [reflexivity|]). split; [cbn; lia|].
  apply (getRelativePath_from_deeper no_regular_file "/a/b/" "/a/");
    try reflexivity. cbn. lia.
Defined.










Lemma pop_back_snoc {A : Type} (v : list A) (x : A) : pop_back (v ++ [x]) = Ret v.
Proof.
  unfold pop_back. destruct (v ++ [x]) eqn:E; [destruct v; discriminate|].
  rewrite <- E, removelast_last. reflexivity.
Qed.



(** When [from] names a regular file its last segment is left out: the
    relative path is the one from the directory of the file. *)
Theorem getRelativePath_from_file
    (isFile : string -> bool) (path1 path2 : string)
    (dirs : list string) (file_name : string) :
  isAbsolutePath path1 = true ->
  isAbsolutePath path2 = true ->
  str_last path2 = Some DIR_SEP_0 ->
  isFile path1 = true ->
  segments path1 = dirs ++ [file_name] ->
  getRelativePath isFile path1 path2 = relative dirs (segments path2).
Proof.
  intros Habs1 Habs2 Hlast Hfile Hseg.
  unfold getRelativePath, str_back. rewrite Habs1, Habs2, Hlast, Hfile.
  cbn [negb orb of_option bind]. rewrite !erase_empty_filter.
  fold (segments path1). fold (segments path2).
  change (Ascii.eqb DIR_SEP_0 "/") with true.
  cbn [negb bind]. rewrite Hseg, pop_back_snoc. cbn [bind fst snd].
  rewrite relative_branches. destruct (relative dirs (segments path2)); reflexivity.
Qed.

Lemma getRelativePath_from_file_witness :
  isAbsolutePath "/a/b/f.txt" = true /\ isAbsolutePath "/a/x/" = true /\
  str_last "/a/x/" = Some DIR_SEP_0 /\
  segments "/a/b/f.txt" = ["a"; "b"]%string ++ ["f.txt"%string] /\
  getRelativePath (fun _ => true) "/a/b/f.txt" "/a/x/"
  = relative ["a"; "b"]%string (segments "/a/x/").
Proof.
  repeat (split; [reflexivity|]).
  apply (getRelativePath_from_file (fun _ => true) "/a/b/f.txt" "/a/x/"
           ["a"; "b"]%string "f.txt"); reflexivity.
Defined.

(** ** More on [isRemoteAddress] *)

Section MoreReadsPastTheEnd.

Variable junk : nat -> ascii.

(** An absolute path is remote only if it begins with two separators. *)
Theorem isRemoteAddress_absolute_path (path : string) :
  isAbsolutePath path = true ->
  isRemoteAddress junk path = starts_with "//" path.
Proof.
  intros Habs. rewrite isRemoteAddress_eq.
  destruct path as [|c path]; [discriminate|].
  cbn in Habs. apply Ascii.eqb_eq in Habs. subst c.
  unfold remote_scheme. cbn [leading_alnum].
  change (isalnum DIR_SEP_0) with false. cbn [starts_with].
  change (Ascii.eqb DIR_SEP_0 ":") with false.
  cbn [andb]. rewrite andb_false_r, orb_false_r. reflexivity.
Qed.

Lemma leading_alnum_scheme (scheme rest : string) :
  all_alnum scheme = true ->
  leading_alnum (scheme +:+ String ":" rest) = (scheme, String ":" rest).
Proof.
  induction scheme as [|a scheme IH]; intros H; [reflexivity|].
  cbn [all_alnum] in H. apply andb_true_iff in H as [Ha Hs].
  rewrite str_app_cons. cbn [leading_alnum]. rewrite Ha, (IH Hs). reflexivity.
Qed.

Lemma starts_with_slashes_scheme (scheme rest : string) :
  all_alnum scheme = true ->
  starts_with "//" (scheme +:+ String ":" rest) = false.
Proof.
  destruct scheme as [|a scheme]; intros H; [reflexivity|].
  cbn [all_alnum] in H. apply andb_true_iff in H as [Ha _].
  rewrite str_app_cons. cbn [starts_with].
  destruct (Ascii.eqb_spec a "/") as [->|_]; [discriminate Ha | reflexivity].
Qed.

(** An address made of an alphanumeric scheme, a colon and two slashes is
    remote exactly when the scheme is not [file], compared letter for
    letter. *)
Theorem isRemoteAddress_scheme (scheme rest : string) :
  all_alnum scheme = true ->
  isRemoteAddress junk (scheme +:+ "://" +:+ rest)
  = negb (String.eqb scheme "file").
Proof.
  intros H. rewrite isRemoteAddress_eq.
  change ("://" +:+ rest) with (String ":" (String "/" (String "/" rest))).
  rewrite (starts_with_slashes_scheme scheme _ H). cbn [orb].
  unfold remote_scheme. rewrite (leading_alnum_scheme scheme _ H).
  cbn [starts_with]. rewrite !Ascii.eqb_refl. cbn [andb].
  apply andb_true_r.
Qed.

End MoreReadsPastTheEnd.

Lemma isRemoteAddress_absolute_path_witness :
  isAbsolutePath "/local/path" = true /\
  isRemoteAddress (fun _ => zero) "/local/path" = starts_with "//" "/local/path".
Proof.
  split; [reflexivity|].
  apply (isRemoteAddress_absolute_path (fun _ => zero) "/local/path"). reflexivity.
Defined.

Lemma isRemoteAddress_scheme_witness :
  all_alnum "FILE" = true /\
  isRemoteAddress (fun _ => zero) ("FILE" +:+ "://" +:+ "x")
  = negb (String.eqb "FILE" "file").
Proof.
  split; [reflexivity|].
  apply (isRemoteAddress_scheme (fun _ => zero) "FILE" "x"). reflexivity.
Defined.

(** ** More on [readFile] and [writeFile] *)





(** [readFile] reports failure, with an empty content, exactly when the
    path names no file, or one that may not be read. *)
Theorem readFile_fails_iff
    (file_of : string -> string) (fs : gmap string file) (path : string) :
  readFile file_of fs path = Ret (false, EmptyString) <->
  (fs !! file_of path = None \/
   exists f, fs !! file_of path = Some f /\ readable f = false).
Proof.
  unfold readFile. destruct (fs !! file_of path) as [f|]; [|split; auto].
  destruct (readable f) eqn:Hr.
  - rewrite read_lines_terminated by lia. cbn [bind]. split; [discriminate|].
    intros [H | (g & [= <-] & Hg)]; congruence.
  - split; [|reflexivity]. intros _. right. exists f. auto.
Qed.

(** [writeFile] changes no file other than the one that the path names,
    under whatever name; when it succeeds that file exists, with the
    permissions of the file found there if there was one, and when it fails
    nothing has changed. *)
Theorem writeFile_frame
    (file_of : string -> string) (create : string -> option (bool * bool))
    (fs fs' : gmap string file) (path content : string) (mode : openmode)
    (t : Z) (ok : bool) :
  writeFile file_of create fs path content mode t = (ok, fs') ->
  (forall other : string, other <> file_of path -> fs' !! other = fs !! other) /\
  (if ok
   then exists f', fs' !! file_of path = Some f' /\
          forall f, fs !! file_of path = Some f ->
            readable f' = readable f /\ writable f' = writable f
   else fs' = fs).
Proof.
  unfold writeFile. destruct (fopen_mode_of mode) as [m|].
  2:{ intros [= <- <-]. split; [intros; reflexivity | reflexivity]. }
  destruct (open_for_writing file_of create fs path m) as [g|] eqn:Ho.
  2:{ intros [= <- <-]. split; [intros; reflexivity | reflexivity]. }
  intros [= <- <-]. split.
  - intros other Hne. apply lookup_insert_ne. congruence.
  - eexists. split; [apply lookup_insert_eq|].
    intros f Hf. unfold open_for_writing in Ho. rewrite Hf in Ho. cbn [readable writable].
    destruct m; cbn beta iota in Ho;
      match type of Ho with
      | (if ?c then _ else _) = _ => destruct c eqn:E; [|discriminate]
      end; injection Ho as <-; cbn [readable writable]; split; congruence.
Qed.

Lemma writeFile_frame_witness :
  (writeFile same_directory create_any two_files "./f" two_lines default_mode 0
     = (true, <["f"%string := File two_lines false true]> two_files) /\
   (forall other : string, other <> same_directory "./f" ->
      <["f"%string := File two_lines false true]> two_files !! other
      = two_files !! other) /\
   exists f', <["f"%string := File two_lines false true]> two_files
                !! same_directory "./f" = Some f' /\
     forall f, two_files !! same_directory "./f" = Some f ->
       readable f' = readable f /\ writable f' = writable f) /\
  (writeFile same_directory create_any two_files "g" two_lines default_mode 0
     = (false, two_files) /\
   (forall other : string, other <> same_directory "g" ->
      two_files !! other = two_files !! other) /\
   two_files = two_files).
Proof.
  assert (Hf : writeFile same_directory create_any two_files "./f" two_lines
                 default_mode 0
               = (true, <["f"%string := File two_lines false true]> two_files))
    by reflexivity.
  assert (Hg : writeFile same_directory create_any two_files "g" two_lines
                 default_mode 0 = (false, two_files))
    by reflexivity.
  split; (split; [eassumption|]).
  - exact (writeFile_frame same_directory create_any two_files _ "./f" two_lines
             default_mode 0 true Hf).
  - exact (writeFile_frame same_directory create_any two_files _ "g" two_lines
             default_mode 0 false Hg).
Defined.



(** ** [copyFile] *)

Lemma BUFFER_LENGTH_positive : (0 < BUFFER_LENGTH)%nat.
Proof. unfold BUFFER_LENGTH. lia. Qed.

Lemma str_substring_split (s : string) :
  forall n, (n <= String.length s)%nat ->
    String.substring 0 n s +:+ String.substring n (String.length s - n) s = s.
Proof.
  induction s as [|a s IH]; intros n Hn.
  - cbn [String.length] in Hn. replace n with O by lia. reflexivity.
  - destruct n as [|n].
    + cbn [String.substring String.length Nat.sub]. rewrite str_app_nil_l.
      rewrite str_substring_all. reflexivity.
    + cbn [String.length] in Hn. cbn [String.substring String.length Nat.sub].
      rewrite str_app_cons, IH by lia. reflexivity.
Qed.

Lemma str_length_substring (s : string) :
  forall n, (n <= String.length s)%nat ->
    String.length (String.substring n (String.length s - n) s)
    = (String.length s - n)%nat.
Proof.
  intros n Hn. pose proof (str_substring_split s n Hn) as H.
  apply (f_equal String.length) in H. rewrite str_length_app in H.
  assert (String.length (String.substring 0 n s) = n).
  { clear H. revert n Hn. induction s as [|a s IH]; intros n Hn.
    - cbn [String.length] in Hn. replace n with O by lia. reflexivity.
    - destruct n as [|n]; [reflexivity|]. cbn [String.length] in Hn.
      cbn [String.substring String.length]. rewrite IH by lia. reflexivity. }
  lia.
Qed.

(** The copying loop moves everything that is left of the input, one buffer
    after the other. *)
Lemma copy_loop_all (fuel : nat) :
  forall from to,
    (String.length from <= fuel)%nat ->
    copy_loop fuel from to = Ret (to +:+ from).
Proof.
  pose proof BUFFER_LENGTH_positive as Hpos.
  induction fuel as [|fuel IH]; intros from to Hfuel.
  - destruct from; [|cbn [String.length] in Hfuel; lia].
    cbn [copy_loop String.length]. rewrite Nat.min_0_r. cbn [Nat.eqb].
    rewrite str_app_nil_r. reflexivity.
  - cbn [copy_loop].
    destruct (Nat.eqb_spec (Nat.min BUFFER_LENGTH (String.length from)) 0) as [E|E].
    + assert (String.length from = 0%nat) by lia.
      destruct from; [|discriminate]. rewrite str_app_nil_r. reflexivity.
    + set (cnt := Nat.min BUFFER_LENGTH (String.length from)) in *.
      assert (Hcnt : (cnt <= String.length from)%nat) by (subst cnt; lia).
      rewrite IH by (rewrite str_length_substring; lia).
      rewrite str_app_assoc, (str_substring_split from cnt Hcnt). reflexivity.
Qed.



(** Copying a file onto itself, under the same name or another one of its
    names, empties it: the output is opened, and the file truncated, before
    anything is read. *)
Theorem copyFile_onto_itself
    (file_of : string -> string) (create : string -> option (bool * bool))
    (fs : gmap string file) (input_path output_path : string) (f : file) :
  file_of output_path = file_of input_path ->
  fs !! file_of input_path = Some f ->
  readable f = true ->
  writable f = true ->
  copyFile file_of create fs input_path output_path
  = Ret (true, <[file_of input_path := File EmptyString true true]> fs).
Proof.
  intros Hsame Hf Hr Hw. unfold copyFile, open_for_writing.
  rewrite Hsame, Hf, Hr, Hw.
  rewrite lookup_insert_eq. cbn [contents readable writable].
  rewrite copy_loop_all by (cbn; lia). cbn [bind].
  rewrite insert_insert_eq. reflexivity.
Qed.

Lemma copyFile_onto_itself_witness :
  same_directory "./s" = same_directory "s" /\
  ({[ "s"%string := File "hello" true true ]} : gmap string file)
    !! same_directory "s" = Some (File "hello" true true) /\
  readable (File "hello" true true) = true /\
  writable (File "hello" true true) = true /\
  copyFile same_directory create_any {[ "s"%string := File "hello" true true ]}
    "s" "./s"
  = Ret (true, <[same_directory "s" := File EmptyString true true]>
                 ({[ "s"%string := File "hello" true true ]} : gmap string file)).
Proof.
  repeat (split; [reflexivity|]).
  apply (copyFile_onto_itself same_directory create_any
           {[ "s"%string := File "hello" true true ]}
           "s" "./s" (File "hello" true true)); reflexivity.
Defined.

(** An output that cannot be opened is not reported: with the input open,
    [fwrite] and [fclose] are called on a null stream. *)
Theorem copyFile_output_not_opened (file_of : string -> string)
    (create : string -> option (bool * bool)) (fs : gmap string file)
    (input_path output_path : string) (f : file) :
  fs !! file_of input_path = Some f ->
  readable f = true ->
  open_for_writing file_of create fs output_path W = None ->
  copyFile file_of create fs input_path output_path = Undefined.
Proof.
  intros Hf Hr Ho. unfold copyFile. rewrite Hf, Hr, Ho. reflexivity.
Qed.

Lemma copyFile_output_not_opened_witness :
  ({[ "s"%string := File "hello" true true ]} : gmap string file) !! "s"%string
    = Some (File "hello" true true) /\
  readable (File "hello" true true) = true /\
  open_for_writing literal (fun _ => None) {[ "s"%string := File "hello" true true ]} "d" W
    = None /\
  copyFile literal (fun _ => None) {[ "s"%string := File "hello" true true ]} "s" "d"
    = Undefined.
Proof.
  repeat (split; [reflexivity|]).
  apply (copyFile_output_not_opened literal (fun _ => None)
           {[ "s"%string := File "hello" true true ]} "s" "d" (File "hello" true true));
    reflexivity.
Defined.

(** ** [createPath] *)

Section CreatePath.

Variable mkdir_allowed : gmap string entry -> string -> bool.

Lemma create_loop_make_dirs (todo : list string) :
  forall (u : list string) (fuel : nat) (tree : gmap string entry)
         (path fail_path : string),
    (length todo <= fuel)%nat ->
    create_loop mkdir_allowed fuel tree (u ++ todo) (sizeZ u) path fail_path
    = Ret (make_dirs mkdir_allowed tree path (List.filter nonempty todo) fail_path).
Proof.
  induction todo as [|s todo IH]; intros u fuel tree path fail_path Hfuel.
  - rewrite app_nil_r. destruct fuel; cbn [create_loop]; rewrite Z.eqb_refl; reflexivity.
  - destruct fuel as [|fuel]; [cbn [length] in Hfuel; lia|].
    cbn [length] in Hfuel. cbn [create_loop].
    rewrite sizeZ_app, sizeZ_cons.
    pose proof (sizeZ_nonneg todo). pose proof (sizeZ_nonneg u). bounds.
    rewrite deref_middle. cbn [bind List.filter]. unfold nonempty at 1.
    destruct (str_empty s); cbn [negb].
    + rewrite erase_middle. cbn [bind].
      replace (sizeZ u - 1 + 1) with (sizeZ u) by lia. apply IH. lia.
    + replace (u ++ s :: todo) with ((u ++ [s]) ++ todo)
        by (rewrite <- app_assoc; reflexivity).
      replace (sizeZ u + 1) with (sizeZ (u ++ [s]))
        by (rewrite sizeZ_app, sizeZ_cons, sizeZ_nil; lia).
      cbn [make_dirs]. unfold exists_, isDir, createDirectory.
      destruct (tree !! (path +:+ (DIR_SEP +:+ s))) as [[|]|].
      * cbn [negb]. apply IH. lia.
      * reflexivity.
      * destruct (mkdir_allowed tree (path +:+ (DIR_SEP +:+ s))); cbn [negb];
          [apply IH; lia | reflexivity].
Qed.

Lemma createPath_make_dirs (tree : gmap string entry) (path fail_path : string) :
  isAbsolutePath path = true ->
  createPath mkdir_allowed tree path fail_path
  = Ret (make_dirs mkdir_allowed tree EmptyString (segments path) fail_path).
Proof.
  intros Habs. unfold createPath, segments. rewrite Habs. cbn [negb].
  destruct (split path DIR_SEP_0) as [|d ds] eqn:E; [reflexivity|].
  exact (create_loop_make_dirs (d :: ds) [] _ tree EmptyString fail_path (le_n _)).
Qed.

Lemma make_dirs_grows (segs : list string) :
  forall tree path fail_path ok tree' fp,
    make_dirs mkdir_allowed tree path segs fail_path = (ok, tree', fp) ->
    forall q e, tree !! q = Some e -> tree' !! q = Some e.
Proof.
  induction segs as [|s segs IH]; intros tree path fail_path ok tree' fp; cbn [make_dirs].
  - intros [= _ <- _]. auto.
  - destruct (tree !! (path +:+ (DIR_SEP +:+ s))) as [[|]|] eqn:Hp.
    + apply IH.
    + intros [= _ <- _]. auto.
    + destruct (mkdir_allowed tree (path +:+ (DIR_SEP +:+ s))).
      * intros Hm q e Hq. apply (IH _ _ _ _ _ _ Hm).
        rewrite lookup_insert_ne by congruence. exact Hq.
      * intros [= _ <- _]. auto.
Qed.

Lemma slashed_step (path s : string) (rest : list string) :
  path +:+ slashed (s :: rest) = (path +:+ (DIR_SEP +:+ s)) +:+ slashed rest.
Proof. cbn [slashed]. rewrite !str_app_assoc. reflexivity. Qed.

Lemma make_dirs_success (segs : list string) :
  forall tree path fail_path tree' fp,
    make_dirs mkdir_allowed tree path segs fail_path = (true, tree', fp) ->
    fp = fail_path /\
    forall k, (1 <= k <= length segs)%nat ->
      tree' !! (path +:+ slashed (take k segs)) = Some Directory.
Proof.
  induction segs as [|s segs IH]; intros tree path fail_path tree' fp; cbn [make_dirs].
  - intros [= _ <-]. split; [reflexivity|]. cbn [length]. lia.
  - assert (Hstep : forall tree1,
              tree1 !! (path +:+ (DIR_SEP +:+ s)) = Some Directory ->
              make_dirs mkdir_allowed tree1 (path +:+ (DIR_SEP +:+ s)) segs fail_path
              = (true, tree', fp) ->
              fp = fail_path /\
              forall k, (1 <= k <= length (s :: segs))%nat ->
                tree' !! (path +:+ slashed (take k (s :: segs))) = Some Directory).
    { intros tree1 Hdir Hm. destruct (IH _ _ _ _ _ Hm) as [Hfp Hk].
      split; [exact Hfp|]. intros [|[|k]] Hle; [lia| |].
      - cbn [take]. rewrite slashed_step. cbn [slashed]. rewrite str_app_nil_r.
        exact (make_dirs_grows _ _ _ _ _ _ _ Hm _ _ Hdir).
      - cbn [take]. rewrite slashed_step. apply Hk. cbn [length] in Hle. lia. }
    destruct (tree !! (path +:+ (DIR_SEP +:+ s))) as [[|]|] eqn:Hp.
    + apply Hstep. exact Hp.
    + discriminate.
    + destruct (mkdir_allowed tree (path +:+ (DIR_SEP +:+ s))); [|discriminate].
      apply Hstep. apply lookup_insert_eq.
Qed.

Lemma make_dirs_failure (segs : list string) :
  forall tree path fail_path tree' fp,
    make_dirs mkdir_allowed tree path segs fail_path = (false, tree', fp) ->
    exists k, (1 <= k <= length segs)%nat /\
      fp = path +:+ slashed (take k segs) /\
      (tree' !! fp = Some NotDirectory \/
       (tree' !! fp = None /\ mkdir_allowed tree' fp = false)).
Proof.
  induction segs as [|s segs IH]; intros tree path fail_path tree' fp; cbn [make_dirs].
  - discriminate.
  - assert (Hone : path +:+ slashed (take 1 (s :: segs)) = path +:+ (DIR_SEP +:+ s)).
    { cbn [take]. rewrite slashed_step. cbn [slashed]. apply str_app_nil_r. }
    assert (Hstep : forall tree1,
              make_dirs mkdir_allowed tree1 (path +:+ (DIR_SEP +:+ s)) segs fail_path
              = (false, tree', fp) ->
              exists k, (1 <= k <= length (s :: segs))%nat /\
                fp = path +:+ slashed (take k (s :: segs)) /\
                (tree' !! fp = Some NotDirectory \/
                 (tree' !! fp = None /\ mkdir_allowed tree' fp = false))).
    { intros tree1 Hm. destruct (IH _ _ _ _ _ Hm) as (k & Hk & Hfp & Hor).
      exists (S k). split; [cbn [length]; lia|]. split; [|exact Hor].
      cbn [take]. rewrite slashed_step. exact Hfp. }
    destruct (tree !! (path +:+ (DIR_SEP +:+ s))) as [[|]|] eqn:Hp.
    + apply Hstep.
    + intros [= <- <-]. exists 1%nat. split; [cbn [length]; lia|].
      split; [symmetry; exact Hone|]. left. exact Hp.
    + destruct (mkdir_allowed tree (path +:+ (DIR_SEP +:+ s))) eqn:Hm.
      * apply Hstep.
      * intros [= <- <-]. exists 1%nat. split; [cbn [length]; lia|].
        split; [symmetry; exact Hone|]. right. split; [exact Hp | exact Hm].
Qed.

Lemma make_dirs_again (segs : list string) :
  forall tree path fail_path,
    (forall k, (1 <= k <= length segs)%nat ->
       tree !! (path +:+ slashed (take k segs)) = Some Directory) ->
    make_dirs mkdir_allowed tree path segs fail_path = (true, tree, fail_path).
Proof.
  induction segs as [|s segs IH]; intros tree path fail_path Hdirs; [reflexivity|].
  cbn [make_dirs].
  assert (H1 : tree !! (path +:+ (DIR_SEP +:+ s)) = Some Directory).
  { specialize (Hdirs 1%nat ltac:(cbn [length]; lia)).
    cbn [take] in Hdirs. rewrite slashed_step in Hdirs. cbn [slashed] in Hdirs.
    rewrite str_app_nil_r in Hdirs. exact Hdirs. }
  rewrite H1. apply IH. intros k Hk.
  specialize (Hdirs (S k) ltac:(cbn [length]; lia)).
  cbn [take] in Hdirs. rewrite slashed_step in Hdirs. exact Hdirs.
Qed.


(** When [createPath] succeeds on an absolute path, [fail_path] is left as
    it was and every leading part of the path is a directory. *)
Theorem createPath_success
    (tree tree' : gmap string entry) (path fail_path fp : string) :
  isAbsolutePath path = true ->
  createPath mkdir_allowed tree path fail_path = Ret (true, tree', fp) ->
  fp = fail_path /\
  forall k, (1 <= k <= length (segments path))%nat ->
    tree' !! slashed (take k (segments path)) = Some Directory.
Proof.
  intros Habs. rewrite (createPath_make_dirs tree path fail_path Habs).
  intros [= Hm]. destruct (make_dirs_success _ _ _ _ _ _ Hm) as [Hfp Hk].
  split; [exact Hfp|]. intros k Hle. specialize (Hk k Hle).
  rewrite str_app_nil_l in Hk. exact Hk.
Qed.

(** When [createPath] fails on an absolute path, [fail_path] is a leading
    part of the path at which there is something that is not a directory,
    or nothing and no leave to create it. *)
Theorem createPath_failure
    (tree tree' : gmap string entry) (path fail_path fp : string) :
  isAbsolutePath path = true ->
  createPath mkdir_allowed tree path fail_path = Ret (false, tree', fp) ->
  exists k, (1 <= k <= length (segments path))%nat /\
    fp = slashed (take k (segments path)) /\
    (tree' !! fp = Some NotDirectory \/
     (tree' !! fp = None /\ mkdir_allowed tree' fp = false)).
Proof.
  intros Habs. rewrite (createPath_make_dirs tree path fail_path Habs).
  intros [= Hm]. destruct (make_dirs_failure _ _ _ _ _ _ Hm) as (k & Hk & Hfp & Hor).
  exists k. rewrite str_app_nil_l in Hfp. auto.
Qed.

(** After [createPath] has succeeded, calling it again on the tree it left
    succeeds and changes nothing. *)
Theorem createPath_again
    (tree tree' : gmap string entry) (path fail_path fp fail_path' : string) :
  isAbsolutePath path = true ->
  createPath mkdir_allowed tree path fail_path = Ret (true, tree', fp) ->
  createPath mkdir_allowed tree' path fail_path' = Ret (true, tree', fail_path').
Proof.
  intros Habs. rewrite (createPath_make_dirs tree path fail_path Habs).
  intros [= Hm]. destruct (make_dirs_success _ _ _ _ _ _ Hm) as [_ Hk].
  rewrite (createPath_make_dirs tree' path fail_path' Habs).
  rewrite make_dirs_again; [reflexivity | exact Hk].
Qed.

End CreatePath.

Lemma createPath_success_witness :
  isAbsolutePath "/a/b/" = true /\
  createPath mkdir_any tree_with_directory "/a/b/" "none"
    = Ret (true, <["/a/b"%string := Directory]> tree_with_directory, "none"%string) /\
  "none"%string = "none"%string /\
  forall k, (1 <= k <= length (segments "/a/b/"))%nat ->
    (<["/a/b"%string := Directory]> tree_with_directory : gmap string entry)
      !! slashed (take k (segments "/a/b/")) = Some Directory.
Proof.
  assert (H : createPath mkdir_any tree_with_directory "/a/b/" "none"
              = Ret (true, <["/a/b"%string := Directory]> tree_with_directory,
                     "none"%string)) by reflexivity.
  split; [reflexivity|]. split; [exact H|].
  exact (createPath_success mkdir_any tree_with_directory _ "/a/b/" "none" "none"
           eq_refl H).
Defined.

Lemma createPath_failure_witness :
  isAbsolutePath "/a/b" = true /\
  createPath mkdir_any tree_with_file "/a/b" "none"
    = Ret (false, tree_with_file, "/a"%string) /\
  exists k, (1 <= k <= length (segments "/a/b"))%nat /\
    "/a"%string = slashed (take k (segments "/a/b")) /\
    (tree_with_file !! "/a"%string = Some NotDirectory \/
     (tree_with_file !! "/a"%string = None /\ mkdir_any tree_with_file "/a" = false)).
Proof.
  assert (H : createPath mkdir_any tree_with_file "/a/b" "none"
              = Ret (false, tree_with_file, "/a"%string)) by reflexivity.
  split; [reflexivity|]. split; [exact H|].
  exact (createPath_failure mkdir_any tree_with_file _ "/a/b" "none" "/a" eq_refl H).
Defined.

Lemma createPath_again_witness :
  isAbsolutePath "/a/b/" = true /\
  createPath mkdir_any tree_with_directory "/a/b/" "none"
    = Ret (true, <["/a/b"%string := Directory]> tree_with_directory, "none"%string) /\
  createPath mkdir_any (<["/a/b"%string := Directory]> tree_with_directory) "/a/b/" "other"
    = Ret (true, <["/a/b"%string := Directory]> tree_with_directory, "other"%string).
Proof.
  assert (H : createPath mkdir_any tree_with_directory "/a/b/" "none"
              = Ret (true, <["/a/b"%string := Directory]> tree_with_directory,
                     "none"%string)) by reflexivity.
  split; [reflexivity|]. split; [exact H|].
  exact (createPath_again mkdir_any tree_with_directory _ "/a/b/" "none" "none" "other"
           eq_refl H).
Defined.

(** ** [isEmptyDir] and [getDirectoryContents] *)

Section DirectoryStreams.

Variable opendir : string -> option (list string).

Lemma count_loop_spec (names : list string) :
  forall cnt, 0 <= cnt <= 2 ->
    count_loop names cnt = (2 <? cnt + sizeZ names).
Proof.
  induction names as [|n names IH]; intros cnt Hcnt.
  - rewrite sizeZ_nil. cbn [count_loop]. symmetry. apply Z.ltb_ge. lia.
  - cbn [count_loop]. rewrite sizeZ_cons. pose proof (sizeZ_nonneg names).
    destruct (Z.gtb_spec (cnt + 1) 2) as [Hgt|Hle].
    + symmetry. apply Z.ltb_lt. lia.
    + rewrite IH by lia. f_equal. lia.
Qed.

(** [isEmptyDir] answers [true] exactly when the directory stream yields at
    most two names, and then it leaves the stream open; when it answers
    [false] the stream is closed. *)
Theorem isEmptyDir_leaves_stream_open
    (streams : nat) (path : string) (names : list string) :
  opendir path = Some names ->
  isEmptyDir opendir streams path
  = Ret (if (length names <=? 2)%nat then (true, S streams) else (false, streams)).
Proof.
  intros Ho. unfold isEmptyDir. rewrite Ho, count_loop_spec by lia.
  unfold sizeZ. destruct (Nat.leb_spec (length names) 2) as [Hle|Hgt].
  - destruct (Z.ltb_spec 2 (0 + Z.of_nat (length names))); [lia | reflexivity].
  - destruct (Z.ltb_spec 2 (0 + Z.of_nat (length names))); [reflexivity | lia].
Qed.

Lemma contents_loop_spec (path : string) (names : list string) :
  forall entries,
    contents_loop path names entries
    = entries ++ map (fun d_name => (path +:+ DIR_SEP) +:+ d_name) (listed names).
Proof.
  unfold listed.
  induction names as [|n names IH]; intros entries; cbn [contents_loop List.filter map].
  - rewrite app_nil_r. reflexivity.
  - destruct (negb (String.eqb n ".") && negb (String.eqb n ".."));
      rewrite IH; [rewrite <- app_assoc|]; reflexivity.
Qed.

Lemma entry_parent_and_base (path d_name : string) :
  nonempty d_name = true ->
  no_sep d_name = true ->
  getBaseName ((path +:+ DIR_SEP) +:+ d_name) = Ret d_name /\
  getParentPath ((path +:+ DIR_SEP) +:+ d_name) = Ret (path +:+ DIR_SEP).
Proof.
  intros Hne Hsep. destruct d_name as [|c d]; [discriminate|].
  unfold DIR_SEP. change "/"%char with DIR_SEP_0. rewrite <- str_snoc_assoc.
  split; [|apply getParentPath_at_last_sep; exact Hsep].
  destruct (str_last_nonempty c d) as [b Hb].
  assert (Hlast : str_last (path +:+ String DIR_SEP_0 (String c d)) = Some b).
  { rewrite (str_snoc_assoc path), str_last_app. exact Hb. }
  rewrite (getBaseName_eq _ b Hlast), (str_last_no_sep _ b Hsep Hb).
  rewrite (base_name_of_at_last_sep path _ Hsep). reflexivity.
Qed.

(** [getDirectoryContents] closes the stream it opens and returns, in the
    order of the listing, one entry for each name other than the dot and
    the dot-dot; the base name of the entry is the name and its parent path
    is the directory path followed by the separator. *)
Theorem getDirectoryContents_entries
    (streams : nat) (path : string) (names : list string) :
  opendir path = Some names ->
  Forall (fun d_name => nonempty d_name = true /\ no_sep d_name = true) names ->
  exists entries,
    getDirectoryContents opendir streams path = Ret (entries, streams) /\
    Forall2 (fun d_name e =>
               getBaseName e = Ret d_name /\
               getParentPath e = Ret (path +:+ DIR_SEP))
            (listed names) entries.
Proof.
  intros Ho Hnames. unfold getDirectoryContents. rewrite Ho.
  rewrite contents_loop_spec. cbn [app Nat.pred]. eexists. split; [reflexivity|].
  assert (Hl : Forall (fun d_name => nonempty d_name = true /\ no_sep d_name = true)
                 (listed names)).
  { unfold listed. apply List.Forall_forall. intros n Hn.
    apply List.filter_In in Hn as [Hn _].
    rewrite List.Forall_forall in Hnames. exact (Hnames n Hn). }
  induction Hl as [|n l [Hne Hsep] _ IH]; cbn [map]; constructor; [|exact IH].
  apply entry_parent_and_base; assumption.
Qed.

End DirectoryStreams.

Lemma isEmptyDir_leaves_stream_open_witness :
  names_of_two "/a" = Some ["."; ".."; "x"; "y"]%string /\
  isEmptyDir names_of_two 0 "/a" = Ret (false, 0%nat) /\
  isEmptyDir (fun _ => Some ["."; ".."]%string) 0 "/a" = Ret (true, 1%nat).
Proof.
  split; [reflexivity|]. split.
  - apply (isEmptyDir_leaves_stream_open names_of_two 0 "/a"
             ["."; ".."; "x"; "y"]%string). reflexivity.
  - apply (isEmptyDir_leaves_stream_open (fun _ => Some ["."; ".."]%string) 0 "/a"
             ["."; ".."]%string). reflexivity.
Defined.

Lemma getDirectoryContents_entries_witness :
  names_of_two "/a" = Some ["."; ".."; "x"; "y"]%string /\
  Forall (fun d_name => nonempty d_name = true /\ no_sep d_name = true)
    ["."; ".."; "x"; "y"]%string /\
  exists entries,
    getDirectoryContents names_of_two 0 "/a" = Ret (entries, 0%nat) /\
    Forall2 (fun d_name e =>
               getBaseName e = Ret d_name /\
               getParentPath e = Ret ("/a" +:+ DIR_SEP))
            (listed ["."; ".."; "x"; "y"]%string) entries.
Proof.
  assert (H : Forall (fun d_name => nonempty d_name = true /\ no_sep d_name = true)
                ["."; ".."; "x"; "y"]%string) by (repeat constructor).
  split; [reflexivity|]. split; [exact H|].
  exact (getDirectoryContents_entries names_of_two 0 "/a" _ eq_refl H).
Defined.
